(** * Lighting: the frame pipeline of [src/index.js]

    A shallow embedding of the lighting server: the colour parser
    [parseColorToHsv], the classes [Universe] and [Channel], the start-up
    wiring and the self-rescheduling [loop].

    JavaScript numbers are kept abstract (class [JSNumber]); the external
    packages ([color-convert], [e131], the vendored candle simulator, the
    clock and the console) are parameters of the development.  Mutable
    objects that are shared (a universe and its slots) live in a store
    that is threaded through every call; exceptions are results.

    The file has the program first (section [Lighting]), then the
    predicates the statements use ([Vocabulary]), a concrete installation
    to run the program on ([Stage]), the properties ([Properties]) and
    the program on concrete inputs ([Scenarios]). *)

From Stdlib Require Import QArith Qround.
From stdpp Require Import base list strings.

(** ** Numbers *)

(** The operations the program performs on JavaScript numbers.  [to_uint8]
    is the conversion applied by an indexed store into a slot of a byte
    buffer; [nle x y] is the test [x <= y]. *)
Class JSNumber (num : Type) := {
  of_nat : nat → num;
  nadd : num → num → num;
  nsub : num → num → num;
  nmul : num → num → num;
  ndiv : num → num → num;
  nle : num → num → bool;
  to_uint8 : num → num;
  nadd_comm : ∀ x y, nadd x y = nadd y x
}.

(** ** Exceptions and results *)

(** [Error msg] is [new Error(msg)]; [TypeError msg] is the exception the
    engine raises itself (a property read on [undefined], an assignment to
    a [const] binding). *)
Inductive exn :=
| Error (msg : string)
| TypeError (msg : string).

Inductive result (A : Type) :=
| Ok (a : A)
| Throw (e : exn).
Arguments Ok {A} a.
Arguments Throw {A} e.

(** A computation over a store [S] that may throw.  What was written to
    the store before a throw stays written. *)
Definition M (S A : Type) : Type := S → result A * S.

Definition ret {S A} (a : A) : M S A := λ s, (Ok a, s).
Definition throw {S A} (e : exn) : M S A := λ s, (Throw e, s).
Definition bind {S A B} (m : M S A) (k : A → M S B) : M S B :=
  λ s, match m s with
       | (Ok a, s') => k a s'
       | (Throw e, s') => (Throw e, s')
       end.
Definition gets {S A} (f : S → A) : M S A := λ s, (Ok (f s), s).
Definition modify {S} (f : S → S) : M S unit := λ s, (Ok tt, f s).
Definition lift {S A} (r : result A) : M S A := λ s, (r, s).

(** The computations use stdpp's monad notation [x ← m; k] and [m;; k]. *)
#[export] Instance M_ret {S} : MRet (M S) := λ A, ret.
#[export] Instance M_bind {S} : MBind (M S) := λ A B k m, bind m k.

(** ** The packages the program requires *)

(** A colour value is an array of three numbers. *)
Definition color3 (num : Type) : Type := num * num * num.

(** The conversions of the [color-convert] package that the program calls.
    A call on a string may throw, return a falsy value ([None]) or return a
    fresh array. *)
Class ColorConvert (num : Type) := {
  keyword_hsv : string → result (option (color3 num));
  rgb_hsv : string → result (option (color3 num));
  hsv_hsv : string → result (option (color3 num));
  hex_hsv : string → result (option (color3 num));
  hsv_rgb : color3 num → color3 num
}.

(** The effect block of a channel's configuration: [level] is the array
    [[base, amplitude]]. *)
Record CandleConfig (num : Type) := {
  level : num * num
}.
Arguments level {num} _.

(** The simulator required from [./vendor/candle]: its constructor, its
    [update()] method and its [flame] field.  Both the constructor and
    [update()] may draw from the global random source, whose state is
    [Rng]. *)
Class CandleModule (num : Type) := {
  Rng : Type;
  Candle : Type;
  Candle_new : CandleConfig num → Rng → Candle * Rng;
  Candle_update : Candle → Rng → Candle * Rng;
  flame : Candle → num
}.

(** The transport of the [e131] package: [client.send(packet, cb)] calls
    [cb] with an error or without one. *)
Class Transport (num : Type) := {
  client_send : string → list num → option exn
}.

Section Lighting.

Context {num : Type} `{JSNumber num, ColorConvert num, CandleModule num, Transport num}.

#[local] Abbreviation color3 := (color3 num).
#[local] Abbreviation CandleConfig := (CandleConfig num).

(** ** Colours *)

Definition to_array (c : color3) : list num :=
  let '(a, b, c) := c in [a; b; c].

(** [hsv[2] = x] *)
Definition set_value (hsv : color3) (x : num) : color3 :=
  let '(h, s, _) := hsv in (h, s, x).

(** [if (!c) throw new Error(msg + str); return c;] *)
Definition checked (msg str : string) (c : option color3)
  : result (option color3) :=
  match c with
  | None => Throw (Error (msg +:+ str))
  | Some c => Ok (Some c)
  end.

Definition and_then {A B} (r : result A) (k : A → result B) : result B :=
  match r with
  | Ok a => k a
  | Throw e => Throw e
  end.

(** [parseColorToHsv], lines 73-94.  [Ok None] is the [undefined] that
    the function returns when it runs off its end. *)
Definition parseColorToHsv (str : string) : result (option color3) :=
  and_then (keyword_hsv str) (λ c,
  match c with
  | Some c => Ok (Some c)
  | None =>
    if String.prefix "rgb" str then
      and_then (rgb_hsv str) (checked "Unknown color: " str)
    else if String.prefix "hsv" str then
      and_then (hsv_hsv str) (checked "Unknown color: " str)
    else if String.prefix "0x" str then
      and_then (hex_hsv str) (checked "Unkown color: " str)
    else Ok None
  end).

(** ** Universes *)

(** The slots of a universe's packet together with the history of the
    indexed assignments [data[i] = v] executed on them (the history is
    ghost state: the program cannot read it). *)
Record Data := {
  slots : list num;
  writes : list (nat * num)
}.

(** Modelled from the spec: the object returned by [getSlotsData()] of the
    [e131] package is not in [src/]; the spec describes it as a
    fixed-length sequence of N intensity values in 0..255.  An indexed
    store converts the number to a slot value and has no effect outside
    the N slots. *)
Definition data_store (i : nat) (v : num) (d : Data) : Data :=
  {| slots := <[i := to_uint8 v]> (slots d);
     writes := writes d ++ [(i, v)] |}.

(** An entry of the configuration's [universes]. *)
Record UniverseConfig := {
  u_name : string;
  u_ip : string;
  u_channels : nat
}.

Record Universe := {
  Universe_config : UniverseConfig;
  name : string;
  address : string;
  channelCount : nat;
  data : Data
}.

Definition with_data (f : Data → Data) (u : Universe) : Universe :=
  {| Universe_config := Universe_config u;
     name := name u;
     address := address u;
     channelCount := channelCount u;
     data := f (data u) |}.

(** [new Universe(u)], lines 45-57.  Modelled from the spec: the packet
    that [createPacket(u.channels)] of the [e131] package returns is not
    in [src/]; its slots are the N intensity values of the spec, all zero
    at first. *)
Definition Universe_new (u : UniverseConfig) : Universe :=
  {| Universe_config := u;
     name := u_name u;
     address := u_ip u;
     channelCount := u_channels u;
     data := {| slots := replicate (u_channels u) (of_nat 0); writes := [] |} |}.

(** ** What the program does to the outside, in order *)

(** Calls of the logger and of [setTimeout], and ghost marks that the
    program itself does not emit: [Frame k] when the frame counter becomes
    [k], [Updated k i] when [update()] of channel [i] has returned in frame
    [k], [Sending k j] when [send()] of universe [j] is called in frame
    [k], [Sent k j] when that call has returned its promise, [Transmit]
    when a packet is handed to the transport. *)
Inductive event :=
| LogInfo (msg : string)
| LogDebugSending (uname : string) (d : list num)
| LogError (msg : string)
| LogFatal (e : exn)
| SetTimeout (wait : num)
| Transmit (addr : string) (d : list num)
| Frame (k : nat)
| Updated (k i : nat)
| Sending (k j : nat)
| Sent (k j : nat).

(** The shared store: the universes (a channel refers to one by its
    position), the random source and the events so far. *)
Record world := {
  universes : list Universe;
  random : Rng;
  events : list event
}.

Definition emit (e : event) (w : world) : world :=
  {| universes := universes w; random := random w; events := events w ++ [e] |}.

Definition with_universes (f : list Universe → list Universe) (w : world) : world :=
  {| universes := f (universes w); random := random w; events := events w |}.

Definition with_random (r : Rng) (w : world) : world :=
  {| universes := universes w; random := r; events := events w |}.

(** ** Channels *)

(** An entry of the configuration's [channels]; [_candle] is the property
    that [update()] adds to it. *)
Record ChannelConfig := {
  universe : string;
  channel : nat;
  type : string;
  hue : string;
  effect : option string;
  candle : option CandleConfig;
  _candle : option Candle
}.

(** [new Channel(c, u)]: the configuration object (owned by this channel)
    and a reference to the universe. *)
Record Channel := {
  Channel_config : ChannelConfig;
  Channel_universe : nat
}.

Definition with_candle (k : Candle) (ch : Channel) : Channel :=
  let c := Channel_config ch in
  {| Channel_config :=
       {| universe := universe c; channel := channel c; type := type c;
          hue := hue c; effect := effect c; candle := candle c;
          _candle := Some k |};
     Channel_universe := Channel_universe ch |}.

(** The loop of [_set], lines 103-105:
    [for (let i = ...; i < data.length; ++i) d[i] = data[i]].
    The test [i < data.length] is the lookup [data !! i]; the loop runs at
    most [data.length] times. *)
Fixpoint _set_loop (fuel i : nat) (dat : list num) (d : Data) : Data :=
  match fuel with
  | 0 => d
  | S fuel' =>
    match dat !! i with
    | Some x => _set_loop fuel' (S i) dat (data_store i x d)
    | None => d
    end
  end.

(** [_set(data)] on the slots of one universe, [offset] being
    [this._config.channel]. *)
Definition _set_data (offset : nat) (dat : list num) (d : Data) : Data :=
  _set_loop (length dat) offset dat d.

(** [Channel._set], lines 102-106, for an argument that may be
    [undefined]: reading [data.length] then throws. *)
Definition _set (dat : option color3) : M (Channel * world) unit :=
  match dat with
  | None => throw (TypeError "Cannot read properties of undefined (reading 'length')")
  | Some dat =>
    modify (λ '(ch, w),
      (ch, with_universes
             (alter (with_data (_set_data (channel (Channel_config ch)) (to_array dat)))
                    (Channel_universe ch)) w))
  end.

(** Lines 112-123 of [update]: the candle effect applied to [hsv]. *)
Definition apply_effect (hsv : option color3) : M (Channel * world) (option color3) :=
  c ← gets (λ s, Channel_config (fst s));
  if decide (effect c = Some "candle") then
    f ← lift (match candle c with
              | Some f => Ok f
              | None => Throw (TypeError "Cannot read properties of undefined (reading 'level')")
              end);
    let value := level f in
    (* if (!c._candle) c._candle = new Candle(f); c._candle.update(); *)
    k ← (λ '(ch, w),
           let '(k0, r0) := match _candle c with
                            | Some k => (k, random w)
                            | None => Candle_new f (random w)
                            end in
           let '(k1, r1) := Candle_update k0 r0 in
           (Ok k1, (with_candle k1 ch, with_random r1 w)));
    let flame := ndiv (flame k) (of_nat 255) in
    match hsv with
    | Some hsv => mret (Some (set_value hsv (nadd (nmul flame (snd value)) (fst value))))
    | None => throw (TypeError "Cannot set properties of undefined (setting '2')")
    end
  else mret hsv.

(** Lines 125-131 of [update]: the colour is written in the channel's
    output encoding.  In the [rgb] branch an [undefined] colour stays
    [undefined] through the conversion. *)
Definition output (hsv : option color3) : M (Channel * world) unit :=
  c ← gets (λ s, Channel_config (fst s));
  if decide (type c = "hsv") then _set hsv
  else if decide (type c = "rgb") then _set (hsv_rgb <$> hsv)
  else modify (λ '(ch, w), (ch, emit (LogError ("Unhandled color type: " +:+ type c)) w)).

(** [Channel.update], lines 108-132. *)
Definition update : M (Channel * world) unit :=
  c ← gets (λ s, Channel_config (fst s));
  hsv ← lift (parseColorToHsv (hue c));
  hsv ← apply_effect hsv;
  output hsv.

(** ** Sending *)

(** [Universe.send], lines 59-62: the debug log, then
    [return Promise.resolve()].  What follows that [return] in the source
    is never executed. *)
Definition send (u : Universe) : M world unit :=
  modify (emit (LogDebugSending (name u) (slots (data u))));;
  mret tt.

(** Lines 64-69 of [send], the statement after the [return]: hand the
    packet to the transport and reject with its error. *)
Definition send_unreachable (u : Universe) : M world unit :=
  modify (emit (Transmit (address u) (slots (data u))));;
  match client_send (address u) (slots (data u)) with
  | Some err => throw err
  | None => mret tt
  end.

(** ** The tick *)

(** [channels.map(c => c.update())], line 171: [update] is an ordinary
    method, so the calls run one after the other inside [map], and the
    first one that throws ends the [map].  [i] is the position of the head
    of [cs] in the channel list. *)
Fixpoint updateAll (k i : nat) (cs : list Channel) (w : world)
  : result unit * (list Channel * world) :=
  match cs with
  | [] => (Ok tt, ([], w))
  | c :: cs' =>
    match update (c, w) with
    | (Ok _, (c', w')) =>
      let '(r, (cs'', w'')) := updateAll k (S i) cs' (emit (Updated k i) w') in
      (r, (c' :: cs'', w''))
    | (Throw e, (c', w')) => (Throw e, (c' :: cs', w'))
    end
  end.

(** [universes.map(u => u.send())], line 172: [send] is [async], so every
    call returns a promise and the [map] always completes; the results are
    the settled promises. *)
Fixpoint sendAll (k j : nat) (us : list Universe) (w : world)
  : list (result unit) * world :=
  match us with
  | [] => ([], w)
  | u :: us' =>
    let '(r, w') := send u (emit (Sending k j) w) in
    let '(rs, w'') := sendAll k (S j) us' (emit (Sent k j) w') in
    (r :: rs, w'')
  end.

(** [await Promise.all(ps)]: throws the first rejection. *)
Fixpoint Promise_all (rs : list (result unit)) : result unit :=
  match rs with
  | [] => Ok tt
  | Ok _ :: rs' => Promise_all rs'
  | Throw e :: _ => Throw e
  end.

(** What the environment supplies to the loop: [start] is [Date.now()] of
    line 163, [now k] is [Date.now()] of line 175 in frame [k], and
    [quit k] is the value of the flag [quit] when [loop] is entered with
    the frame counter at [k]. *)
Record Env := {
  start : num;
  now : nat → num;
  quit : nat → bool
}.

Definition RATE : num := of_nat 30.
Definition NOMINAL_DELAY : num := nmul (ndiv (of_nat 1) RATE) (of_nat 1000).

(** The state of the server between two calls of [loop]. *)
Record server := {
  channels : list Channel;
  store : world;
  frame : nat
}.

(** How a call of [loop] ends: it resolved the outer promise, its own
    promise was rejected, or it armed the timer for the next call. *)
Inductive outcome :=
| Resolved
| Rejected (e : exn)
| Timer (wait : num).

(** One call of [loop], lines 166-182.  [wait] is declared [const], so the
    assignment [wait = 0] of line 179 throws. *)
Definition loop (env : Env) (s : server) : outcome * server :=
  if quit env (frame s) then (Resolved, s)
  else
    let k := S (frame s) in
    match updateAll k 0 (channels s) (emit (Frame k) (store s)) with
    | (Throw e, (cs, w)) => (Rejected e, {| channels := cs; store := w; frame := k |})
    | (Ok _, (cs, w)) =>
      let '(rs, w) := sendAll k 0 (universes w) w in
      match Promise_all rs with
      | Throw e => (Rejected e, {| channels := cs; store := w; frame := k |})
      | Ok _ =>
        let target := nadd (start env) (nmul NOMINAL_DELAY (of_nat k)) in
        let wait := nsub target (now env k) in
        if nle wait (of_nat 0) then
          (Rejected (TypeError "Assignment to constant variable."),
           {| channels := cs;
              store := emit (LogError "frame wait is less than 0") w;
              frame := k |})
        else
          (Timer wait,
           {| channels := cs; store := emit (SetTimeout wait) w; frame := k |})
      end
    end.

(** The calls of [loop] chained by the timer; [fuel] bounds how many are
    followed.  The outcome [Timer _] means the timer is still armed. *)
Fixpoint run (env : Env) (fuel : nat) (s : server) : outcome * server :=
  match fuel with
  | 0 => loop env s
  | S fuel' =>
    match loop env s with
    | (Timer _, s') => run env fuel' s'
    | r => r
    end
  end.

(** ** Start-up *)

Record Config := {
  cfg_universes : list UniverseConfig;
  cfg_channels : list ChannelConfig
}.

(** The callback of line 143: [universes.find] returns the first universe
    with the channel's universe name. *)
Definition wire (us : list Universe) (c : ChannelConfig) : result Channel :=
  match list_find (λ u, u_name (Universe_config u) = universe c) us with
  | None => Throw (Error "No matching universe")
  | Some (i, _) => Ok {| Channel_config := c; Channel_universe := i |}
  end.

(** [cs.map(wire)]: the first throw ends the [map]. *)
Fixpoint wireAll (us : list Universe) (cs : list ChannelConfig) : result (list Channel) :=
  match cs with
  | [] => Ok []
  | c :: cs' =>
    and_then (wire us c) (λ ch,
    and_then (wireAll us cs') (λ chs, Ok (ch :: chs)))
  end.

(** How the process stands after [main]: it exited, the start-up failed
    and was logged as fatal, or the loop is the last thing that
    happened. *)
Inductive status :=
| Exited
| Fatal (e : exn)
| Looping (o : outcome).

(** Line 186: [process.exit()] is reached when the loop has resolved the
    promise. *)
Definition exit_status (o : outcome) : status :=
  match o with
  | Resolved => Exited
  | o => Looping o
  end.

(** The server function, lines 138-189, followed for [fuel] timer
    expirations. *)
Definition main (cfg : Config) (r0 : Rng) (env : Env) (fuel : nat)
  : status * server :=
  let us := Universe_new <$> cfg_universes cfg in
  let w0 := {| universes := us; random := r0; events := [] |} in
  match wireAll us (cfg_channels cfg) with
  | Throw e =>
    (Fatal e, {| channels := []; store := emit (LogFatal e) w0; frame := 0 |})
  | Ok chs =>
    let s0 := {| channels := chs;
                 store := emit (LogInfo "starting server") w0;
                 frame := 0 |} in
    let '(o, s) := run env fuel s0 in
    (exit_status o, s)
  end.

End Lighting.

(** * The vocabulary of the properties

    Predicates and functions that the statements below are written with;
    none of them is part of the program. *)

Section Vocabulary.

Context {num : Type} `{JSNumber num, ColorConvert num, CandleModule num, Transport num}.

#[local] Abbreviation event := (@event num).
#[local] Abbreviation Data := (@Data num).
#[local] Abbreviation Universe := (@Universe num).
#[local] Abbreviation outcome := (@outcome num).
#[local] Abbreviation Env := (@Env num).

(** What [update] never changes in a channel: everything but [_candle]. *)
Definition same_wiring (ch ch' : Channel) : Prop :=
  Channel_universe ch' = Channel_universe ch
  ∧ universe (Channel_config ch') = universe (Channel_config ch)
  ∧ channel (Channel_config ch') = channel (Channel_config ch)
  ∧ type (Channel_config ch') = type (Channel_config ch)
  ∧ hue (Channel_config ch') = hue (Channel_config ch)
  ∧ effect (Channel_config ch') = effect (Channel_config ch)
  ∧ candle (Channel_config ch') = candle (Channel_config ch).

(** The candle step as a function of the channel and the store: the
    simulator in use (the retained one, or a new one when there is none),
    advanced by one step. *)
Definition advanced (f : CandleConfig num) (ch : Channel) (w : world) : Candle * Rng :=
  let '(k0, r0) := match _candle (Channel_config ch) with
                   | Some k => (k, random w)
                   | None => Candle_new f (random w)
                   end in
  Candle_update k0 r0.

(** An event that is not a ghost mark: a call of the logger, of the
    timer or of the transport. *)
Definition is_log (e : event) : Prop :=
  match e with
  | Frame _ | Updated _ _ | Sending _ _ | Sent _ _ => False
  | _ => True
  end.

(** The simulator built once from [f] and advanced [n] times, with the
    random source it leaves behind. *)
Fixpoint candle_seq (f : CandleConfig num) (r : Rng) (n : nat) : Candle * Rng :=
  match n with
  | 0 => Candle_new f r
  | S n' => let '(k, r') := candle_seq f r n' in Candle_update k r'
  end.

(** The channel and the store after [n] successive updates. *)
Definition updated (n : nat) (s : Channel * world) : Channel * world :=
  Nat.iter n (λ s, snd (update s)) s.

(** A mark of frame [k] left by the updates, or a log line. *)
Definition update_event (k : nat) (e : event) : Prop :=
  is_log e ∨ ∃ i, e = Updated k i.

(** A mark of frame [k] left by the sends, or a log line. *)
Definition send_event (k : nat) (e : event) : Prop :=
  is_log e ∨ ∃ j, e = Sending k j ∨ e = Sent k j.

(** A channel is bound to the first universe that carries its universe
    name. *)
Definition bound (us : list Universe) (c : ChannelConfig) (ch : Channel) : Prop :=
  Channel_config ch = c
  ∧ ∃ u, us !! Channel_universe ch = Some u
         ∧ u_name (Universe_config u) = universe c
         ∧ ∀ j u', us !! j = Some u' → j < Channel_universe ch →
             u_name (Universe_config u') ≠ universe c.

(** The server as [main] hands it to the loop. *)
Definition started (cfg : Config) (r0 : Rng) (chs : list Channel) : server :=
  {| channels := chs;
     store := {| universes := Universe_new <$> cfg_universes cfg;
                 random := r0;
                 events := [LogInfo "starting server"] |};
     frame := 0 |}.

(** The frame a mark belongs to. *)
Definition in_frame (k : nat) (e : event) : Prop :=
  match e with
  | Frame k' | Updated k' _ | Sending k' _ | Sent k' _ => k' = k
  | _ => False
  end.

Definition is_updated (k : nat) (e : event) : Prop := ∃ i, e = Updated k i.
Definition is_send (k : nat) (e : event) : Prop :=
  ∃ j, e = Sending k j ∨ e = Sent k j.

(** Every [P] event of [tr] occurs before every [Q] event of [tr]. *)
Definition precedes (tr : list event) (P Q : event → Prop) : Prop :=
  ∀ p q e e', tr !! p = Some e → tr !! q = Some e' → P e → Q e' → p < q.

(** [e] has occurred in [tr] before position [q]. *)
Definition done_before (tr : list event) (q : nat) (e : event) : Prop :=
  ∃ p, p < q ∧ tr !! p = Some e.

(** A trace in which the ticks are in order: the updates of a frame lie
    before its sends, a send begins with all updates of its frame done,
    the marks of a frame lie before those of every later frame, and a
    frame begins with all updates and sends of the frame before it
    done. *)
Definition ordered (nc nu : nat) (tr : list event) : Prop :=
  (∀ k, precedes tr (is_updated k) (is_send k))
  ∧ (∀ q k j, tr !! q = Some (Sending k j) →
       ∀ i, i < nc → done_before tr q (Updated k i))
  ∧ (∀ k k', k < k' → precedes tr (in_frame k) (in_frame k'))
  ∧ (∀ q k, tr !! q = Some (Frame (S (S k))) →
       (∀ i, i < nc → done_before tr q (Updated (S k) i))
       ∧ (∀ j, j < nu → done_before tr q (Sent (S k) j))).

Definition bounded (K : nat) (tr : list event) : Prop :=
  ∀ e k, e ∈ tr → in_frame k e → 1 ≤ k ≤ K.

Definition complete (nc nu K : nat) (tr : list event) : Prop :=
  (∀ i, i < nc → Updated K i ∈ tr) ∧ (∀ j, j < nu → Sent K j ∈ tr).

(** The events of one call of [loop] that found [quit] unset: the frame
    mark, the updates, the sends, and the closing log line or timer.
    [armed] tells whether the call armed the timer. *)
Definition tick_block (nc nu k : nat) (armed : bool) (b : list event) : Prop :=
  ∃ U S T,
    b = Frame k :: U ++ S ++ T
    ∧ Forall (update_event k) U
    ∧ Forall (send_event k) S
    ∧ Forall is_log T
    ∧ ((∀ i, i < nc → Updated k i ∈ U) ∨ (S = [] ∧ armed = false))
    ∧ (armed = true → ∀ j, j < nu → Sent k j ∈ S).

(** Whether a call of [loop] armed the timer. *)
Definition armed (o : outcome) : bool :=
  match o with
  | Timer _ => true
  | _ => false
  end.

(** The state of a server whose trace is in order. *)
Definition in_order (nc nu : nat) (s : server) : Prop :=
  length (channels s) = nc
  ∧ length (universes (store s)) = nu
  ∧ ordered nc nu (events (store s))
  ∧ bounded (frame s) (events (store s)).

(** What no update changes in a universe: its identity, the number of
    its slots, and its slots from index 3 on. *)
Definition same_universe (u u' : Universe) : Prop :=
  Universe_config u' = Universe_config u
  ∧ name u' = name u
  ∧ address u' = address u
  ∧ channelCount u' = channelCount u
  ∧ length (slots (data u')) = length (slots (data u))
  ∧ drop 3 (slots (data u')) = drop 3 (slots (data u)).


(** A channel refers to a universe of the store, and to one of the name
    its configuration gives. *)
Definition wired (w : world) (ch : Channel) : Prop :=
  ∃ u, universes w !! Channel_universe ch = Some u
       ∧ name u = universe (Channel_config ch).


(** The events of the send phase of frame [k] for the universes [us],
    the first of which has position [j]. *)
Fixpoint send_trace (k j : nat) (us : list Universe) : list event :=
  match us with
  | [] => []
  | u :: us' =>
    Sending k j :: LogDebugSending (name u) (slots (data u)) :: Sent k j
    :: send_trace k (S j) us'
  end.

End Vocabulary.

(** ** A concrete installation

    Numbers are the rationals, kept in lowest terms.  The packages are
    small stand-ins: the conversions follow [color-convert] (see
    [colors]), the simulator walks through fixed values and the transport
    always fails.  They serve to run the definitions above on concrete
    inputs. *)
Module Stage.

(** [ToUint8]: truncate, then reduce modulo 256. *)
Definition Q_to_uint8 (x : Q) : Q :=
  inject_Z (Z.quot (Qnum x) (Zpos (Qden x)) mod 256).

#[export] Instance Q_number : JSNumber Q := {|
  of_nat n := inject_Z (Z.of_nat n);
  nadd x y := Qred (Qplus x y);
  nsub x y := Qred (Qminus x y);
  nmul x y := Qred (Qmult x y);
  ndiv x y := Qred (Qdiv x y);
  nle x y := Qle_bool x y;
  to_uint8 := Q_to_uint8;
  nadd_comm x y := Qred_complete _ _ (Qplus_comm x y)
|}.

Definition rgb (r g b : Z) : color3 Q := (inject_Z r, inject_Z g, inject_Z b).

(** Four of the CSS keywords, with their HSV values; the inputs below
    use no other keyword. *)
Definition css_keyword (s : string) : option (color3 Q) :=
  if decide (s = "red") then Some (rgb 0 100 100)
  else if decide (s = "lime") then Some (rgb 120 100 100)
  else if decide (s = "blue") then Some (rgb 240 100 100)
  else if decide (s = "white") then Some (rgb 0 0 100)
  else None.

(** [Math.round] *)
Definition Q_round (x : Q) : Q := inject_Z (Qfloor (Qplus x (1 # 2))).

(** The HSV to RGB conversion of [color-convert], with the rounding its
    wrapper applies to the result. *)
Definition Q_hsv_rgb (hsv : color3 Q) : color3 Q :=
  let '(h0, s0, v0) := hsv in
  let h := Qdiv h0 (inject_Z 60) in
  let s := Qdiv s0 (inject_Z 100) in
  let v := Qdiv v0 (inject_Z 100) in
  let hi := (Qfloor h mod 6)%Z in
  let f := Qminus h (inject_Z (Qfloor h)) in
  let p := Q_round (Qmult (Qmult (inject_Z 255) v) (Qminus 1 s)) in
  let q := Q_round (Qmult (Qmult (inject_Z 255) v) (Qminus 1 (Qmult s f))) in
  let t := Q_round (Qmult (Qmult (inject_Z 255) v) (Qminus 1 (Qmult s (Qminus 1 f)))) in
  let v := Q_round (Qmult v (inject_Z 255)) in
  match hi with
  | 0%Z => (v, t, p)
  | 1%Z => (q, v, p)
  | 2%Z => (p, v, t)
  | 3%Z => (p, q, v)
  | 4%Z => (t, p, v)
  | _ => (v, p, q)
  end.

(** The conversions as [color-convert] has them.  [keyword.hsv] takes the
    entry of the string in the keyword table and converts it: for a
    string that is no keyword the entry is [undefined] and the conversion
    throws a [TypeError]; it never returns a falsy value.  [hsv.hsv] does
    not exist, so calling it throws.  [rgb.hsv] and [hex.hsv] return an
    array for every string: [hex.hsv] black for a string without
    hexadecimal digits (the digits are not parsed here), [rgb.hsv] three
    NaN, which the rationals do not have (black stands there too).  The
    last three are called only after [keyword.hsv] returned a falsy
    value, so no run of the program on this installation reaches them. *)
#[export] Instance colors : ColorConvert Q := {|
  keyword_hsv s :=
    match css_keyword s with
    | Some c => Ok (Some c)
    | None => Throw (TypeError "Cannot read properties of undefined (reading '0')")
    end;
  rgb_hsv _ := Ok (Some (rgb 0 0 0));
  hsv_hsv _ := Throw (TypeError "color.hsv.hsv is not a function");
  hex_hsv _ := Ok (Some (rgb 0 0 0));
  hsv_rgb := Q_hsv_rgb
|}.

(** A simulator whose flame follows a fixed walk driven by a counter. *)
#[export] Instance candles : CandleModule Q := {|
  Rng := nat;
  Candle := Q;
  Candle_new _ r := (inject_Z 0, r);
  Candle_update _ r := (inject_Z (Z.of_nat ((r * 85 + 51) mod 256)), S r);
  flame k := k
|}.

(** A transport on which every send fails. *)
#[export] Instance unreachable : Transport Q := {|
  client_send _ _ := Some (Error "ENETUNREACH")
|}.

Definition stage : UniverseConfig :=
  {| u_name := "stage"; u_ip := "10.0.0.2"; u_channels := 6 |}.

Definition plain (offset : nat) (ty hue_ : string) : ChannelConfig :=
  {| universe := "stage"; channel := offset; type := ty; hue := hue_;
     effect := None; candle := None; _candle := None |}.

Definition flicker (offset : nat) (ty hue_ : string) : ChannelConfig :=
  {| universe := "stage"; channel := offset; type := ty; hue := hue_;
     effect := Some "candle";
     candle := Some {| level := (inject_Z 50, inject_Z 100) |};
     _candle := None |}.

(** A channel that declares the candle effect and has no effect
    block. *)
Definition blockless (offset : nat) (ty hue_ : string) : ChannelConfig :=
  {| universe := "stage"; channel := offset; type := ty; hue := hue_;
     effect := Some "candle"; candle := None; _candle := None |}.

Definition on_stage (c : ChannelConfig) : Channel :=
  {| Channel_config := c; Channel_universe := 0 |}.

Definition w0 : world :=
  {| universes := [Universe_new stage]; random := 0; events := [] |}.

(** A clock that reads 40 ms in every frame, with a start at 0. *)
Definition late : Env :=
  {| start := inject_Z 0; now := λ _, inject_Z 40; quit := λ _, false |}.

(** A clock on which every frame ends 10 ms after its nominal start, and
    a quit request that arrives after frame [n]. *)
Definition on_time (n : nat) : Env :=
  {| start := inject_Z 0;
     now := λ k, Qplus (Qmult (1000 # 30) (inject_Z (Z.of_nat (k - 1)))) (inject_Z 10);
     quit := λ k, bool_decide (n ≤ k) |}.

(** The slots of the first universe of a store, and the assignments
    executed on them. *)
Definition stage_slots (w : world) : list Q :=
  match universes w with
  | u :: _ => slots (data u)
  | [] => []
  end.

Definition stage_writes (w : world) : list (nat * Q) :=
  match universes w with
  | u :: _ => writes (data u)
  | [] => []
  end.

Definition numbers (zs : list Z) : list Q := inject_Z <$> zs.

(** A server before its first frame. *)
Definition fresh (cs : list ChannelConfig) : server :=
  {| channels := on_stage <$> cs; store := w0; frame := 0 |}.

(** Two universes and two channels, the second channel flickering. *)
Definition house : UniverseConfig :=
  {| u_name := "house"; u_ip := "10.0.0.3"; u_channels := 3 |}.

Definition show : Config :=
  {| cfg_universes := [stage; house];
     cfg_channels := [plain 0 "rgb" "rgb(255,0,0)"; flicker 0 "hsv" "lime"] |}.

(** The same with keyword hues. *)
Definition gala : Config :=
  {| cfg_universes := [stage; house];
     cfg_channels := [plain 0 "rgb" "red"; flicker 0 "hsv" "lime"] |}.

(** A configuration whose only channel names a universe that does not
    exist. *)
Definition stray : Config :=
  {| cfg_universes := [stage];
     cfg_channels := [{| universe := "attic"; channel := 0; type := "rgb";
                         hue := "red"; effect := None; candle := None;
                         _candle := None |}] |}.

(** A store with the two universes [stage] and [house]. *)
Definition w2 : world :=
  {| universes := [Universe_new stage; Universe_new house];
     random := 0; events := [] |}.


(** The universe [stage] configured twice, and a channel that names
    it. *)
Definition doubled : Config :=
  {| cfg_universes := [stage; stage; house];
     cfg_channels := [plain 0 "rgb" "red"] |}.


End Stage.

(** * Properties *)

Section Properties.

Context {num : Type} `{JSNumber num, ColorConvert num, CandleModule num, Transport num}.

#[local] Abbreviation event := (@event num).
#[local] Abbreviation Data := (@Data num).
#[local] Abbreviation Universe := (@Universe num).
#[local] Abbreviation outcome := (@outcome num).
#[local] Abbreviation Env := (@Env num).

(** ** The write loop *)

Lemma _set_loop_writes fuel : ∀ i (dat : list num) (d : Data),
  length dat ≤ i + fuel →
  writes (_set_loop fuel i dat d)
  = writes d ++ zip (seq i (length dat - i)) (drop i dat).
Proof.
  induction fuel as [|fuel IH]; intros i dat d Hfuel; simpl.
  - replace (length dat - i) with 0 by lia. by rewrite app_nil_r.
  - destruct (dat !! i) as [x|] eqn:Hi.
    + pose proof (lookup_lt_Some _ _ _ Hi) as Hlt.
      rewrite IH by lia. simpl. rewrite <- app_assoc. f_equal.
      replace (length dat - i) with (S (length dat - S i)) by lia.
      by rewrite (drop_S _ _ _ Hi).
    + apply lookup_ge_None in Hi.
      replace (length dat - i) with 0 by lia. by rewrite app_nil_r.
Qed.

Lemma _set_loop_length fuel : ∀ i (dat : list num) (d : Data),
  length (slots (_set_loop fuel i dat d)) = length (slots d).
Proof.
  induction fuel as [|fuel IH]; intros i dat d; simpl; [done|].
  destruct (dat !! i); [|done]. rewrite IH. simpl. apply length_insert.
Qed.

Lemma _set_loop_below fuel : ∀ i j (dat : list num) (d : Data),
  j < i → slots (_set_loop fuel i dat d) !! j = slots d !! j.
Proof.
  induction fuel as [|fuel IH]; intros i j dat d Hj; simpl; [done|].
  destruct (dat !! i); [|done].
  rewrite IH by lia. simpl. apply list_lookup_insert_ne. lia.
Qed.

Lemma _set_loop_beyond fuel : ∀ i j (dat : list num) (d : Data),
  length dat ≤ j → slots (_set_loop fuel i dat d) !! j = slots d !! j.
Proof.
  induction fuel as [|fuel IH]; intros i j dat d Hj; simpl; [done|].
  destruct (dat !! i) as [x|] eqn:Hi; [|done].
  apply lookup_lt_Some in Hi.
  rewrite IH by lia. simpl. apply list_lookup_insert_ne. lia.
Qed.

Lemma _set_loop_written fuel : ∀ i j x (dat : list num) (d : Data),
  length dat ≤ i + fuel → i ≤ j → dat !! j = Some x → j < length (slots d) →
  slots (_set_loop fuel i dat d) !! j = Some (to_uint8 x).
Proof.
  induction fuel as [|fuel IH]; intros i j x dat d Hfuel Hij Hj Hlen; simpl.
  - apply lookup_lt_Some in Hj. lia.
  - destruct (dat !! i) as [y|] eqn:Hi.
    + destruct (decide (i = j)) as [->|Hne].
      * rewrite _set_loop_below by lia. simpl.
        rewrite list_lookup_insert_eq by done. congruence.
      * apply IH; [lia|lia|done|]. simpl. by rewrite length_insert.
    + apply lookup_ge_None in Hi. apply lookup_lt_Some in Hj. lia.
Qed.

(** An offset of 3 or more: the loop test fails at once. *)
Lemma _set_data_skip (o : nat) (c : color3 num) (d : Data) :
  3 ≤ o → _set_data o (to_array c) d = d.
Proof.
  intros Ho. destruct c as [[a b] c]. unfold _set_data. simpl.
  by rewrite lookup_ge_None_2 by (simpl; lia).
Qed.

Lemma with_data_id (f : Data → Data) (u : Universe) :
  f (data u) = data u → with_data f u = u.
Proof. intros Hf. destruct u. unfold with_data. simpl in *. by rewrite Hf. Qed.

(** The write loop on the slots [D] of a universe, for a three-component
    colour. *)
Lemma _set_data_assignments (o : nat) (d : color3 num) (D : Data) :
  let D' := _set_data o (to_array d) D in
  let assigned := zip (seq o (3 - o)) (drop o (to_array d)) in
  writes D' = writes D ++ assigned
  ∧ (∀ i x, (i, x) ∈ assigned ↔ (o ≤ i < 3 ∧ to_array d !! i = Some x))
  ∧ length (slots D') = length (slots D)
  ∧ (∀ i, i < o ∨ 3 ≤ i → slots D' !! i = slots D !! i)
  ∧ (∀ i x, o ≤ i < 3 → to_array d !! i = Some x → i < length (slots D) →
       slots D' !! i = Some (to_uint8 x))
  ∧ (length assigned = 3 ↔ o = 0).
Proof.
  intros D' assigned.
  assert (length (to_array d) = 3) as Hlen by (by destruct d as [[? ?] ?]).
  split.
  { subst D' assigned. unfold _set_data.
    rewrite _set_loop_writes by lia. by rewrite Hlen. }
  split.
  { intros i x. subst assigned. destruct d as [[a b] c]. simpl.
    destruct o as [|[|[|o']]]; simpl;
      rewrite ?elem_of_cons, ?elem_of_nil;
      destruct i as [|[|[|i']]]; simpl;
      intuition (try discriminate; try congruence; try lia). }
  split; [apply _set_loop_length|]. split.
  { intros i [Hi|Hi]; [by apply _set_loop_below|].
    apply _set_loop_beyond. lia. }
  split.
  { intros i x [Hoi _] Hx Hi. apply _set_loop_written; [lia|done..]. }
  subst assigned. rewrite length_zip, length_seq, length_drop, Hlen. lia.
Qed.

(** C10.  [Channel._set] with offset [o] and a three-component colour
    [d], for a channel whose universe [u] is in the store: the call
    returns, and afterwards the universe of the channel has had exactly
    the assignments [buffer[i] = d[i]] for [o <= i < 3] executed on it, in
    that order, and no other: no index of 3 or more is assigned whatever
    the number of slots is, the slots below [o] keep their values, and the
    components [d[0..o)] are dropped.  A slot [i] of the buffer with
    [o <= i < 3] then holds [d[i]] as a slot value.  All three components
    are placed only for [o = 0]; for [o = 1] and [o = 2] a strict suffix is
    written, each component at its own index.  The universe keeps its
    identity, and nothing else changes: not the channel, not another
    universe, not the random source, not the events. *)
Theorem set_writes_unshifted_suffix (ch : Channel) (w : world)
    (d : color3 num) (u : Universe) :
  let o := channel (Channel_config ch) in
  let assigned := zip (seq o (3 - o)) (drop o (to_array d)) in
  let r := _set (Some d) (ch, w) in
  universes w !! Channel_universe ch = Some u →
  fst r = Ok tt
  ∧ fst (snd r) = ch
  ∧ random (snd (snd r)) = random w
  ∧ events (snd (snd r)) = events w
  ∧ (∀ j, j ≠ Channel_universe ch →
       universes (snd (snd r)) !! j = universes w !! j)
  ∧ ∃ u', universes (snd (snd r)) !! Channel_universe ch = Some u'
          ∧ Universe_config u' = Universe_config u
          ∧ name u' = name u
          ∧ address u' = address u
          ∧ channelCount u' = channelCount u
          ∧ writes (data u') = writes (data u) ++ assigned
          ∧ (∀ i x, (i, x) ∈ assigned ↔ (o ≤ i < 3 ∧ to_array d !! i = Some x))
          ∧ length (slots (data u')) = length (slots (data u))
          ∧ (∀ i, i < o ∨ 3 ≤ i → slots (data u') !! i = slots (data u) !! i)
          ∧ (∀ i x, o ≤ i < 3 → to_array d !! i = Some x →
               i < length (slots (data u)) →
               slots (data u') !! i = Some (to_uint8 x))
          ∧ (length assigned = 3 ↔ o = 0).
Proof.
  intros o assigned r Hu. subst r. simpl.
  destruct (_set_data_assignments o d (data u))
    as (Hw & Hin & Hlen & Hkeep & Hput & Hall).
  split; [done|]. split; [done|]. split; [done|]. split; [done|]. split.
  { intros j Hj. by apply list_lookup_alter_ne. }
  exists (with_data (_set_data o (to_array d)) u). split.
  { by rewrite list_lookup_alter_eq, Hu. }
  simpl. repeat (split; [done|]). done.
Qed.

(** ** One update *)

Lemma same_wiring_refl ch : same_wiring ch ch.
Proof. by repeat split. Qed.

Lemma same_wiring_trans ch1 ch2 ch3 :
  same_wiring ch1 ch2 → same_wiring ch2 ch3 → same_wiring ch1 ch3.
Proof. unfold same_wiring. intros ? ?. destruct_and!. repeat split; congruence. Qed.

Lemma same_wiring_with_candle k ch : same_wiring ch (with_candle k ch).
Proof. by repeat split. Qed.

Lemma update_unfold (ch : Channel) (w : world) :
  update (ch, w)
  = match parseColorToHsv (hue (Channel_config ch)) with
    | Throw e => (Throw e, (ch, w))
    | Ok o =>
      match apply_effect o (ch, w) with
      | (Ok o', s') => output o' s'
      | (Throw e, s') => (Throw e, s')
      end
    end.
Proof.
  unfold update, mbind, M_bind, bind, gets, lift. simpl.
  by destruct (parseColorToHsv _).
Qed.

Lemma apply_effect_candle (o : option (color3 num)) ch w f :
  effect (Channel_config ch) = Some "candle" →
  candle (Channel_config ch) = Some f →
  apply_effect o (ch, w)
  = let '(k1, r1) := advanced f ch w in
    (match o with
     | Some hsv =>
       Ok (Some (set_value hsv
                   (nadd (nmul (ndiv (flame k1) (of_nat 255)) (snd (level f)))
                         (fst (level f)))))
     | None => Throw (TypeError "Cannot set properties of undefined (setting '2')")
     end,
     (with_candle k1 ch, with_random r1 w)).
Proof.
  intros He Hf. unfold apply_effect, advanced, mbind, M_bind, bind, gets, lift.
  simpl. rewrite He, Hf. rewrite decide_True by done.
  destruct (_candle (Channel_config ch)) as [k|].
  - destruct (Candle_update k (random w)) as [k1 r1]. by destruct o.
  - destruct (Candle_new f (random w)) as [k0 r0].
    destruct (Candle_update k0 r0) as [k1 r1]. by destruct o.
Qed.

Lemma apply_effect_plain (o : option (color3 num)) ch w :
  effect (Channel_config ch) ≠ Some "candle" →
  apply_effect o (ch, w) = (Ok o, (ch, w)).
Proof.
  intros He. unfold apply_effect, mbind, M_bind, bind, gets. simpl.
  by rewrite decide_False.
Qed.

(** The effect step touches neither a universe nor the event list. *)
Lemma apply_effect_frame (o : option (color3 num)) ch w r ch' w' :
  apply_effect o (ch, w) = (r, (ch', w')) →
  universes w' = universes w ∧ events w' = events w ∧ same_wiring ch ch'.
Proof.
  destruct (decide (effect (Channel_config ch) = Some "candle")) as [He|He].
  - destruct (candle (Channel_config ch)) as [f|] eqn:Hf.
    + rewrite (apply_effect_candle _ _ _ f) by done.
      destruct (advanced f ch w) as [k1 r1]. intros [= _ <- <-].
      split; [done|]. split; [done|]. apply same_wiring_with_candle.
    + unfold apply_effect, mbind, M_bind, bind, gets, lift. simpl.
      rewrite Hf, decide_True by done. simpl. intros [= _ <- <-].
      split; [done|]. split; [done|]. apply same_wiring_refl.
  - rewrite apply_effect_plain by done. intros [= _ <- <-].
    split; [done|]. split; [done|]. apply same_wiring_refl.
Qed.

Lemma output_frame (o : option (color3 num)) ch w r ch' w' :
  output o (ch, w) = (r, (ch', w')) →
  ch' = ch ∧ random w' = random w
  ∧ length (universes w') = length (universes w)
  ∧ ∃ l, events w' = events w ++ l ∧ Forall is_log l.
Proof.
  unfold output, mbind, M_bind, bind, gets, modify. simpl.
  assert (∀ o' : option (color3 num), _set o' (ch, w) = (r, (ch', w')) →
    ch' = ch ∧ random w' = random w
    ∧ length (universes w') = length (universes w)
    ∧ ∃ l, events w' = events w ++ l ∧ Forall is_log l) as Hset.
  { intros [d|]; simpl.
    - unfold modify. intros [= _ <- <-]. simpl. rewrite length_alter.
      repeat split. exists []. by rewrite app_nil_r.
    - unfold throw. intros [= _ <- <-].
      repeat split. exists []. by rewrite app_nil_r. }
  destruct (decide (type (Channel_config ch) = "hsv")); [apply Hset|].
  destruct (decide (type (Channel_config ch) = "rgb")); [apply Hset|].
  intros [= _ <- <-]. simpl. repeat split.
  eexists [_]. split; [done|]. by repeat constructor.
Qed.

(** With an offset of 3 or more the output step leaves every universe as
    it is. *)
Lemma output_skip (o : option (color3 num)) ch w :
  3 ≤ channel (Channel_config ch) →
  universes (snd (snd (output o (ch, w)))) = universes w.
Proof.
  intros Ho. unfold output, mbind, M_bind, bind, gets, modify. simpl.
  assert (∀ o' : option (color3 num),
    universes (snd (snd (_set o' (ch, w)))) = universes w) as Hset.
  { intros [d|]; simpl; [|done].
    apply list_alter_id. intros u. apply with_data_id.
    by apply _set_data_skip. }
  destruct (decide (type (Channel_config ch) = "hsv")); [apply Hset|].
  destruct (decide (type (Channel_config ch) = "rgb")); [apply Hset|].
  done.
Qed.

(** C6.  A channel whose configured offset is 3 or greater: a call of
    [update] writes nothing into any universe's frame buffer.  Neither
    the slots nor the history of indexed assignments change, whatever the
    colour, the encoding and the effect are, and whether the call returns
    or throws. *)
Theorem update_offset_ge_3_writes_nothing (ch : Channel) (w : world) :
  3 ≤ channel (Channel_config ch) →
  universes (snd (snd (update (ch, w)))) = universes w.
Proof.
  intros Ho. rewrite update_unfold.
  destruct (parseColorToHsv _) as [o|e]; [|done].
  destruct (apply_effect o (ch, w)) as [r [ch' w']] eqn:Heff.
  apply apply_effect_frame in Heff as (Hu & _ & Hw).
  destruct r as [o'|e]; [|done].
  rewrite output_skip; [done|].
  destruct Hw as (_ & _ & -> & _). done.
Qed.

(** ** Colours that do not parse *)

(** When the parser throws, the update throws the same exception and has
    done nothing: no simulator, no write, no event. *)
Lemma update_parse_throws ch w e :
  parseColorToHsv (hue (Channel_config ch)) = Throw e →
  update (ch, w) = (Throw e, (ch, w)).
Proof. intros Hp. by rewrite update_unfold, Hp. Qed.

(** ** The candle effect over successive updates *)

Lemma candle_seq_S f r n :
  candle_seq f r (S n)
  = let '(k, r') := candle_seq f r n in Candle_update k r'.
Proof. done. Qed.

Lemma updated_S n s : updated (S n) s = snd (update (updated n s)).
Proof. done. Qed.

Lemma update_candle_step ch w f hsv :
  effect (Channel_config ch) = Some "candle" →
  candle (Channel_config ch) = Some f →
  parseColorToHsv (hue (Channel_config ch)) = Ok (Some hsv) →
  update (ch, w)
  = let '(k, r) := advanced f ch w in
    output (Some (set_value hsv
                    (nadd (fst (level f))
                          (nmul (ndiv (flame k) (of_nat 255)) (snd (level f))))))
           (with_candle k ch, with_random r w).
Proof.
  intros He Hf Hp. rewrite update_unfold, Hp.
  rewrite (apply_effect_candle _ _ _ f) by done.
  destruct (advanced f ch w) as [k r]. by rewrite nadd_comm.
Qed.

Lemma updated_candle ch w f hsv n :
  effect (Channel_config ch) = Some "candle" →
  candle (Channel_config ch) = Some f →
  parseColorToHsv (hue (Channel_config ch)) = Ok (Some hsv) →
  _candle (Channel_config ch) = None →
  same_wiring ch (fst (updated n (ch, w)))
  ∧ advanced f (fst (updated n (ch, w))) (snd (updated n (ch, w)))
    = candle_seq f (random w) (S n).
Proof.
  intros He Hf Hp Hk. induction n as [|n [Hw IH]].
  - split; [apply same_wiring_refl|]. simpl. unfold advanced. rewrite Hk.
    by destruct (Candle_new f (random w)).
  - rewrite updated_S.
    destruct (updated n (ch, w)) as [chn wn]. cbn [fst snd] in *.
    assert (Hw' := Hw). destruct Hw' as (_ & _ & _ & _ & Hh & He' & Hf').
    rewrite (update_candle_step chn wn f hsv) by congruence.
    rewrite IH. destruct (candle_seq f (random w) (S n)) as [k r] eqn:Hs.
    match goal with |- context [output ?o ?s] =>
      destruct (output o s) as [res [ch' w']] eqn:Hout end.
    apply output_frame in Hout as (-> & Hr & _). cbn [fst snd]. split.
    + eapply same_wiring_trans; [exact Hw|apply same_wiring_with_candle].
    + rewrite (candle_seq_S _ _ (S n)), Hs. unfold advanced. cbn.
      by rewrite Hr.
Qed.

(** C8.  A channel that declares the candle effect with
    [level = [base, amplitude]] and whose hue parses to an HSV value
    [(h, s, v)], starting without a simulator: in its [n+1]-th update the
    simulator in use is the one constructed in the first update and
    advanced once per update since ([candle_seq] constructs once and steps
    [n+1] times), it is the one retained in [_candle] afterwards, and the
    colour handed to the output step is [(h, s, base + flame/255 *
    amplitude)] for that simulator's [flame]. *)
Theorem candle_effect_brightness ch w f base amplitude h s v n :
  effect (Channel_config ch) = Some "candle" →
  candle (Channel_config ch) = Some f →
  level f = (base, amplitude) →
  parseColorToHsv (hue (Channel_config ch)) = Ok (Some (h, s, v)) →
  _candle (Channel_config ch) = None →
  let st := updated n (ch, w) in
  let k := fst (candle_seq f (random w) (S n)) in
  let r := snd (candle_seq f (random w) (S n)) in
  update st
  = output (Some (h, s, nadd base (nmul (ndiv (flame k) (of_nat 255)) amplitude)))
           (with_candle k (fst st), with_random r (snd st))
  ∧ _candle (Channel_config (fst (updated (S n) (ch, w)))) = Some k.
Proof.
  intros He Hf Hl Hp Hk st k r.
  destruct (updated_candle ch w f (h, s, v) n He Hf Hp Hk) as [Hw Hadv].
  fold st in Hw, Hadv. rewrite updated_S. fold st.
  destruct st as [chn wn]. cbn [fst snd] in *.
  assert (Hw' := Hw). destruct Hw' as (_ & _ & _ & _ & Hh & He' & Hf').
  assert (update (chn, wn)
          = output (Some (h, s, nadd base (nmul (ndiv (flame k) (of_nat 255)) amplitude)))
                   (with_candle k chn, with_random r wn)) as Hupd.
  { rewrite (update_candle_step chn wn f (h, s, v))
      by (rewrite ?He', ?Hf', ?Hh; done).
    rewrite Hadv, Hl. subst k r.
    by destruct (candle_seq f (random w) (S n)). }
  split; [exact Hupd|]. rewrite Hupd.
  match goal with |- context [output ?o ?s] =>
    destruct (output o s) as [res [ch' w']] eqn:Hout end.
  by apply output_frame in Hout as (-> & _).
Qed.

(** ** All updates of a tick *)

Lemma update_frame ch w r ch' w' :
  update (ch, w) = (r, (ch', w')) →
  same_wiring ch ch'
  ∧ length (universes w') = length (universes w)
  ∧ ∃ l, events w' = events w ++ l ∧ Forall is_log l.
Proof.
  rewrite update_unfold.
  destruct (parseColorToHsv _) as [o|e].
  - destruct (apply_effect o (ch, w)) as [r1 [ch1 w1]] eqn:Heff.
    apply apply_effect_frame in Heff as (Hu & He & Hw).
    destruct r1 as [o'|e].
    + intros Hout. apply output_frame in Hout as (-> & _ & Hlen & l & Hl & Hlog).
      split; [done|]. split; [congruence|]. exists l. by rewrite Hl, He.
    + intros [= _ <- <-]. split; [done|]. split; [congruence|].
      exists []. by rewrite app_nil_r.
  - intros [= _ <- <-]. split; [apply same_wiring_refl|]. split; [done|].
    exists []. by rewrite app_nil_r.
Qed.

(** The updates of a list of channels, split at any point: the second
    part runs only if the first part returned. *)
Lemma updateAll_app k cs1 : ∀ i cs2 w,
  updateAll k i (cs1 ++ cs2) w
  = match updateAll k i cs1 w with
    | (Ok _, (cs1', w1)) =>
      let '(r, (cs2', w2)) := updateAll k (i + length cs1) cs2 w1 in
      (r, (cs1' ++ cs2', w2))
    | (Throw e, (cs1', w1)) => (Throw e, (cs1' ++ cs2, w1))
    end.
Proof.
  induction cs1 as [|c cs1 IH]; intros i cs2 w; simpl.
  - rewrite Nat.add_0_r. by destruct (updateAll k i cs2 w) as [r [cs2' w2]].
  - destruct (update (c, w)) as [[[]|e] [c' w']]; [|done].
    rewrite IH.
    destruct (updateAll k (S i) cs1 _) as [[[]|e] [cs1' w1]]; [|done].
    replace (i + S (length cs1)) with (S i + length cs1) by lia.
    by destruct (updateAll k _ cs2 w1) as [r [cs2' w2]].
Qed.

Lemma updateAll_spec k cs : ∀ i w r cs' w',
  updateAll k i cs w = (r, (cs', w')) →
  length cs' = length cs
  ∧ length (universes w') = length (universes w)
  ∧ ∃ l, events w' = events w ++ l
         ∧ Forall (update_event k) l
         ∧ (r = Ok tt → ∀ i', i' < length cs → Updated k (i + i') ∈ l).
Proof.
  induction cs as [|c cs IH]; intros i w r cs' w'; simpl.
  - intros [= <- <- <-]. repeat split.
    exists []. rewrite app_nil_r. repeat split; [constructor|].
    intros _ i' Hi'. simpl in Hi'. lia.
  - destruct (update (c, w)) as [[[]|e] [c1 w1]] eqn:Hupd;
      apply update_frame in Hupd as (_ & Hlen & l1 & Hl1 & Hlog1).
    + destruct (updateAll k (S i) cs (emit (Updated k i) w1))
        as [r2 [cs2 w2]] eqn:Hrest.
      apply IH in Hrest as (Hcs & Hus & l2 & Hl2 & Hall2 & Hdone).
      intros [= <- <- <-]. simpl in *.
      split; [by rewrite Hcs|]. split; [congruence|].
      exists (l1 ++ Updated k i :: l2). split.
      { rewrite Hl2, Hl1, <- !app_assoc. done. }
      split.
      { apply Forall_app. split.
        - eapply Forall_impl; [exact Hlog1|]. intros e ?. by left.
        - constructor; [right; by eexists|done]. }
      intros Hr [|i'] Hi'.
      * rewrite Nat.add_0_r. apply elem_of_app. right. apply elem_of_cons. by left.
      * replace (i + S i') with (S i + i') by lia.
        apply elem_of_app. right. apply elem_of_cons. right.
        apply Hdone; [done|lia].
    + intros [= <- <- <-]. simpl. split; [done|]. split; [done|].
      exists l1. split; [done|]. split.
      { eapply Forall_impl; [exact Hlog1|]. intros ? ?. by left. }
      intros [=].
Qed.

Lemma sendAll_spec k us : ∀ j w rs w',
  sendAll k j us w = (rs, w') →
  universes w' = universes w
  ∧ Promise_all rs = Ok tt
  ∧ ∃ l, events w' = events w ++ l
         ∧ Forall (send_event k) l
         ∧ (∀ j', j' < length us → Sent k (j + j') ∈ l).
Proof.
  induction us as [|u us IH]; intros j w rs w'; simpl.
  - intros [= <- <-]. repeat split.
    exists []. rewrite app_nil_r. repeat split; [constructor|].
    intros j' Hj'. simpl in Hj'. lia.
  - destruct (sendAll k (S j) us _) as [rs2 w2] eqn:Hrest.
    apply IH in Hrest as (Hus & Hall & l & Hl & Hev & Hdone).
    intros [= <- <-]. simpl in *. split; [done|]. split; [done|].
    eexists (Sending k j :: _ :: Sent k j :: l). split.
    { rewrite Hl, <- !app_assoc. done. }
    split.
    { constructor; [right; exists j; by left|]. constructor; [by left|].
      constructor; [right; exists j; by right|done]. }
    intros [|j'] Hj'.
    + rewrite Nat.add_0_r. do 2 (apply elem_of_cons; right).
      apply elem_of_cons. by left.
    + replace (j + S j') with (S j + j') by lia.
      do 3 (apply elem_of_cons; right). apply Hdone. lia.
Qed.

(** Once a call of [loop] has not armed the timer, nothing runs any
    more. *)
Lemma run_stops env fuel s o s' :
  loop env s = (o, s') → (∀ wait, o ≠ Timer wait) →
  run env fuel s = (o, s').
Proof.
  intros Hloop Ho. destruct fuel as [|fuel]; simpl; [done|].
  rewrite Hloop. destruct o; try done. by destruct (Ho wait).
Qed.

(** A tick that ends at or after its target time: the overrun is logged,
    the assignment to [wait] throws, and the timer is not armed. *)
Lemma overrun_rejects env s cs w rs w2 :
  quit env (frame s) = false →
  updateAll (S (frame s)) 0 (channels s) (emit (Frame (S (frame s))) (store s))
  = (Ok tt, (cs, w)) →
  sendAll (S (frame s)) 0 (universes w) w = (rs, w2) →
  nle (nsub (nadd (start env) (nmul NOMINAL_DELAY (of_nat (S (frame s)))))
            (now env (S (frame s))))
      (of_nat 0) = true →
  ∀ fuel,
    run env fuel s
    = (Rejected (TypeError "Assignment to constant variable."),
       {| channels := cs;
          store := emit (LogError "frame wait is less than 0") w2;
          frame := S (frame s) |}).
Proof.
  intros Hq Hupd Hsend Hwait fuel. apply run_stops; [|done].
  unfold loop. rewrite Hq, Hupd, Hsend.
  apply sendAll_spec in Hsend as (_ & -> & _). by rewrite Hwait.
Qed.

(** C5, as the code has it.  In a tick, an error raised by the update of
    one channel ends the tick there: the channels before it in the
    configured order have been updated, the channels after it are not
    updated (they and the store are left as they were when the error was
    raised), no universe is sent, and no further tick takes place: the
    call of [loop] is rejected with that error. *)
Theorem update_error_ends_tick env s cs1 c cs2 cs1' w1 e c' w' :
  quit env (frame s) = false →
  channels s = cs1 ++ c :: cs2 →
  updateAll (S (frame s)) 0 cs1 (emit (Frame (S (frame s))) (store s))
  = (Ok tt, (cs1', w1)) →
  update (c, w1) = (Throw e, (c', w')) →
  ∀ fuel,
    run env fuel s
    = (Rejected e,
       {| channels := cs1' ++ c' :: cs2; store := w'; frame := S (frame s) |}).
Proof.
  intros Hq Hcs Hbefore Hthrow fuel. apply run_stops; [|done].
  unfold loop. rewrite Hq, Hcs, updateAll_app, Hbefore. simpl.
  by rewrite Hthrow.
Qed.

(** ** Start-up *)

Lemma wire_unknown (us : list Universe) c :
  (∀ u, u ∈ us → u_name (Universe_config u) ≠ universe c) →
  wire us c = Throw (Error "No matching universe").
Proof.
  intros Hno. unfold wire.
  destruct (list_find _ us) as [[i u]|] eqn:Hfind; [|done].
  apply list_find_Some in Hfind as (Hi & Hu & _).
  destruct (Hno u); [|done]. by eapply list_elem_of_lookup_2.
Qed.

Lemma wire_known (us : list Universe) c :
  (∃ u, u ∈ us ∧ u_name (Universe_config u) = universe c) →
  ∃ ch, wire us c = Ok ch ∧ bound us c ch.
Proof.
  intros (u & Hin & Hu). unfold wire.
  destruct (list_find _ us) as [[i u']|] eqn:Hfind.
  - apply list_find_Some in Hfind as (Hi & Hu' & Hfirst).
    eexists. split; [done|]. split; [done|]. simpl.
    exists u'. repeat split; [done..|]. intros j u'' Hj Hlt. by eapply Hfirst.
  - apply list_find_None in Hfind.
    rewrite Forall_forall in Hfind. by destruct (Hfind u Hin).
Qed.

Lemma wire_error (us : list Universe) c e :
  wire us c = Throw e → e = Error "No matching universe".
Proof.
  unfold wire. destruct (list_find _ us) as [[i u]|]; [done|]. congruence.
Qed.

Lemma wireAll_error (us : list Universe) cs : ∀ e,
  wireAll us cs = Throw e → e = Error "No matching universe".
Proof.
  induction cs as [|c cs IH]; intros e; simpl; [done|].
  destruct (wire us c) as [ch|e'] eqn:Hw; simpl.
  - destruct (wireAll us cs) as [chs|e'']; simpl; [done|].
    intros [= <-]. by apply IH.
  - intros [= <-]. by eapply wire_error.
Qed.

Lemma wireAll_unknown (us : list Universe) cs :
  (∃ c, c ∈ cs ∧ ∀ u, u ∈ us → u_name (Universe_config u) ≠ universe c) →
  wireAll us cs = Throw (Error "No matching universe").
Proof.
  intros (c & Hin & Hno).
  induction cs as [|c0 cs IH]; [by apply elem_of_nil in Hin|]. simpl.
  destruct (wire us c0) as [ch|e] eqn:Hw; simpl.
  - apply elem_of_cons in Hin as [->|Hin].
    + by rewrite wire_unknown in Hw.
    + by rewrite IH.
  - by rewrite (wire_error _ _ _ Hw).
Qed.

Lemma wireAll_known (us : list Universe) cs :
  (∀ c, c ∈ cs → ∃ u, u ∈ us ∧ u_name (Universe_config u) = universe c) →
  ∃ chs, wireAll us cs = Ok chs ∧ Forall2 (bound us) cs chs.
Proof.
  induction cs as [|c cs IH]; intros Hall; simpl.
  - exists []. by split.
  - destruct (wire_known us c) as (ch & -> & Hb).
    { apply Hall. by left. }
    destruct IH as (chs & -> & Hbs).
    { intros c' Hc'. apply Hall. by right. }
    simpl. exists (ch :: chs). split; [done|]. by constructor.
Qed.

(** C9.  If a configured channel names a universe that is not among the
    configured universes, start-up fails with a fatal error before the
    loop is entered: the only event is that fatal log, the frame counter
    is still 0, and no channel exists.  If every channel's universe name
    resolves, wiring succeeds, each channel is bound to the first
    universe of its name, and the loop is started on them. *)
Theorem unknown_universe_is_fatal cfg r0 env fuel :
  let us := Universe_new <$> cfg_universes cfg in
  ((∃ c, c ∈ cfg_channels cfg
         ∧ ∀ u, u ∈ cfg_universes cfg → u_name u ≠ universe c) →
   main cfg r0 env fuel
   = (Fatal (Error "No matching universe"),
      {| channels := [];
         store := {| universes := us; random := r0;
                     events := [LogFatal (Error "No matching universe")] |};
         frame := 0 |}))
  ∧ ((∀ c, c ∈ cfg_channels cfg →
         ∃ u, u ∈ cfg_universes cfg ∧ u_name u = universe c) →
     ∃ chs, wireAll us (cfg_channels cfg) = Ok chs
            ∧ Forall2 (bound us) (cfg_channels cfg) chs
            ∧ main cfg r0 env fuel
              = (exit_status (fst (run env fuel (started cfg r0 chs))),
                 snd (run env fuel (started cfg r0 chs)))).
Proof.
  intros us. split.
  - intros (c & Hin & Hno). unfold main. fold us.
    rewrite wireAll_unknown; [done|].
    exists c. split; [done|]. intros u Hu.
    apply list_elem_of_fmap in Hu as (u0 & -> & Hu0). by apply Hno.
  - intros Hall. destruct (wireAll_known us (cfg_channels cfg)) as (chs & Hw & Hb).
    { intros c Hc. destruct (Hall c Hc) as (u & Hu & Hname).
      exists (Universe_new u). split; [|done]. by apply list_elem_of_fmap_2. }
    exists chs. split; [done|]. split; [done|].
    unfold main. fold us. rewrite Hw. unfold started. fold us.
    by destruct (run env fuel _).
Qed.

(** ** The order of events *)

Lemma precedes_app (tr1 tr2 : list event) P Q :
  precedes tr1 P Q → precedes tr2 P Q →
  (∀ e e', e ∈ tr2 → e' ∈ tr1 → P e → Q e' → False) →
  precedes (tr1 ++ tr2) P Q.
Proof.
  intros H1' H2' Hx p q e e' Hp Hq HP HQ.
  apply lookup_app_Some in Hp as [Hp|[Hp1 Hp2]];
    apply lookup_app_Some in Hq as [Hq|[Hq1 Hq2]].
  - by eapply H1'.
  - apply lookup_lt_Some in Hp. lia.
  - destruct (Hx e e'); [by eapply list_elem_of_lookup_2..|done|done].
  - pose proof (H2' _ _ _ _ Hp2 Hq2 HP HQ). lia.
Qed.

Lemma precedes_no_first (tr : list event) P Q :
  (∀ e, e ∈ tr → ¬ P e) → precedes tr P Q.
Proof.
  intros Hno p q e e' Hp _ HP _.
  destruct (Hno e); [by eapply list_elem_of_lookup_2|done].
Qed.

Lemma precedes_no_second (tr : list event) P Q :
  (∀ e, e ∈ tr → ¬ Q e) → precedes tr P Q.
Proof.
  intros Hno p q e e' _ Hq _ HQ.
  destruct (Hno e'); [by eapply list_elem_of_lookup_2|done].
Qed.

Lemma done_before_app (tr b : list event) q e :
  done_before tr q e → done_before (tr ++ b) q e.
Proof. intros (p & Hp & He). exists p. split; [done|]. by apply lookup_app_l_Some. Qed.

Lemma done_before_elem (tr b : list event) q e :
  e ∈ tr → length tr ≤ q → done_before (tr ++ b) q e.
Proof.
  intros (p & Hp)%list_elem_of_lookup_1 Hq. exists p. split.
  - apply lookup_lt_Some in Hp. lia.
  - by apply lookup_app_l_Some.
Qed.

Lemma is_log_not_mark (e : event) k : is_log e → ¬ in_frame k e.
Proof. destruct e; simpl; tauto. Qed.

Lemma update_event_frame k k' (e : event) : update_event k e → in_frame k' e → k' = k.
Proof. intros [Hl|[i ->]]; [by intros ?%is_log_not_mark|done]. Qed.

Lemma send_event_frame k k' (e : event) : send_event k e → in_frame k' e → k' = k.
Proof. intros [Hl|[j [->| ->]]]; [by intros ?%is_log_not_mark|done..]. Qed.

Lemma update_event_not_send k k' (e : event) : update_event k e → ¬ is_send k' e.
Proof. intros Hu [j [->| ->]]; by destruct Hu as [Hl|[i Hi]]. Qed.

Lemma send_event_not_updated k k' (e : event) : send_event k e → ¬ is_updated k' e.
Proof. intros Hs [i ->]. by destruct Hs as [Hl|[j [Hj|Hj]]]. Qed.

Lemma is_updated_frame k (e : event) : is_updated k e → in_frame k e.
Proof. by intros [i ->]. Qed.

Lemma is_send_frame k (e : event) : is_send k e → in_frame k e.
Proof. by intros [j [->| ->]]. Qed.

Lemma is_log_not_updated k (e : event) : is_log e → ¬ is_updated k e.
Proof. intros Hl [i ->]. done. Qed.

Lemma is_log_not_send k (e : event) : is_log e → ¬ is_send k e.
Proof. intros Hl [j [->| ->]]; done. Qed.

(** Appending the events of one more tick to a trace that is in order
    and whose last tick is complete. *)
Lemma ordered_extend nc nu K (tr b : list event) armed :
  ordered nc nu tr → bounded K tr →
  (1 ≤ K → complete nc nu K tr) →
  tick_block nc nu (S K) armed b →
  ordered nc nu (tr ++ b)
  ∧ bounded (S K) (tr ++ b)
  ∧ (armed = true → complete nc nu (S K) (tr ++ b)).
Proof.
  intros (Ha & Hb & Hc & Hd) Hbd Hcomp
         (U & S' & T & -> & HU & HS & HT & Hupd & Hsnt).
  rewrite Forall_forall in HU, HS, HT.
  assert (∀ e k', e ∈ Frame (S K) :: U ++ S' ++ T → in_frame k' e → k' = S K)
    as Hmark.
  { intros e k' He Hin. apply elem_of_cons in He as [->|He]; [done|].
    apply elem_of_app in He as [He|He]; [by eapply update_event_frame; eauto|].
    apply elem_of_app in He as [He|He]; [by eapply send_event_frame; eauto|].
    by destruct (is_log_not_mark e k' (HT e He)). }
  assert (∀ e k', e ∈ S' ++ T → ¬ is_updated k' e) as Hrest.
  { intros e k' [He|He]%elem_of_app.
    - eapply send_event_not_updated; eauto.
    - apply is_log_not_updated; eauto. }
  split; [split; [|split; [|split]]|split].
  - (* updates before sends *)
    intros k. apply precedes_app; [apply Ha| |].
    + change (Frame (S K) :: U ++ S' ++ T) with ([Frame (S K)] ++ U ++ S' ++ T).
      apply precedes_app.
      * apply precedes_no_first. intros e ->%list_elem_of_singleton [i [=]].
      * apply precedes_app.
        -- apply precedes_no_second. intros e He.
           eapply update_event_not_send; eauto.
        -- apply precedes_no_first. intros e He. by apply Hrest.
        -- intros e e' He _ HP _. by eapply Hrest.
      * intros e e' _ ->%list_elem_of_singleton _ [j [[=]|[=]]].
    + intros e e' He He' HP%is_updated_frame HQ%is_send_frame.
      apply (Hmark _ _ He) in HP. apply (Hbd _ _ He') in HQ. lia.
  - (* a send finds every update done *)
    intros q k j Hq i Hi.
    apply lookup_app_Some in Hq as [Hq|[Hlen Hq]].
    { apply done_before_app. by eapply Hb. }
    destruct (q - length tr) as [|m] eqn:Hm; [done|]. simpl in Hq.
    apply lookup_app_Some in Hq as [Hq|[HlenU Hq]].
    { apply list_elem_of_lookup_2 in Hq.
      destruct (update_event_not_send (S K) k _ (HU _ Hq)). exists j. by left. }
    apply lookup_app_Some in Hq as [Hq|[_ Hq]].
    + assert (Sending k j ∈ S') as Hin by (by eapply list_elem_of_lookup_2).
      assert (k = S K) as -> by (eapply send_event_frame; [by apply HS|done]).
      destruct Hupd as [Hupd|[-> _]]; [|by apply elem_of_nil in Hin].
      destruct (list_elem_of_lookup_1 _ _ (Hupd i Hi)) as [pu Hpu].
      exists (length tr + S pu). split.
      * apply lookup_lt_Some in Hpu. lia.
      * rewrite lookup_app_r by lia.
        replace (length tr + S pu - length tr) with (S pu) by lia.
        simpl. by apply lookup_app_l_Some.
    + apply list_elem_of_lookup_2 in Hq. by destruct (HT _ Hq).
  - (* frames in order *)
    intros k k' Hlt. apply precedes_app; [by apply Hc| |].
    + intros p q e e' Hp Hq HP HQ.
      apply list_elem_of_lookup_2 in Hp, Hq.
      apply (Hmark _ _ Hp) in HP. apply (Hmark _ _ Hq) in HQ. lia.
    + intros e e' He He' HP HQ.
      apply (Hmark _ _ He) in HP. apply (Hbd _ _ He') in HQ. lia.
  - (* a frame begins when the one before is complete *)
    intros q k Hq.
    apply lookup_app_Some in Hq as [Hq|[Hlen Hq]].
    { destruct (Hd q k Hq) as [Hd1 Hd2].
      split; intros; apply done_before_app; auto. }
    destruct (q - length tr) as [|m] eqn:Hm.
    + injection Hq as [= ->]. destruct Hcomp as [Hc1 Hc2]; [lia|].
      split; intros; apply done_before_elem; auto.
    + simpl in Hq. apply list_elem_of_lookup_2 in Hq.
      apply elem_of_app in Hq as [Hq|Hq].
      { by destruct (HU _ Hq) as [?|[? ?]]. }
      apply elem_of_app in Hq as [Hq|Hq].
      { by destruct (HS _ Hq) as [?|[? [?|?]]]. }
      by destruct (HT _ Hq).
  - intros e k [He|He]%elem_of_app Hin.
    + apply (Hbd _ _ He) in Hin. lia.
    + apply (Hmark _ _ He) in Hin. lia.
  - intros ->. destruct Hupd as [Hupd|[_ [=]]].
    split; intros; apply elem_of_app; right; apply elem_of_cons; right.
    + apply elem_of_app. left. by apply Hupd.
    + apply elem_of_app. right. apply elem_of_app. left. by apply Hsnt.
Qed.

Lemma loop_quit env s : quit env (frame s) = true → loop env s = (Resolved, s).
Proof. intros Hq. unfold loop. by rewrite Hq. Qed.

(** What one call of [loop] adds to the events when [quit] is unset. *)
Lemma loop_block env s o s' :
  quit env (frame s) = false →
  loop env s = (o, s') →
  frame s' = S (frame s)
  ∧ length (channels s') = length (channels s)
  ∧ length (universes (store s')) = length (universes (store s))
  ∧ ∃ b, events (store s') = events (store s) ++ b
         ∧ tick_block (length (channels s)) (length (universes (store s)))
                      (S (frame s)) (armed o) b.
Proof.
  intros Hq. unfold loop. rewrite Hq.
  destruct (updateAll _ 0 (channels s) _) as [r [cs w]] eqn:Hupd.
  apply updateAll_spec in Hupd as (Hcs & Hus & l & Hl & HU & Hdone).
  simpl in Hus, Hl. destruct r as [[]|e].
  - destruct (sendAll _ 0 (universes w) w) as [rs w2] eqn:Hsend.
    apply sendAll_spec in Hsend as (Hus2 & -> & l2 & Hl2 & HS & Hsent).
    destruct (nle _ _); intros [= <- <-]; simpl;
      (split; [done|]; split; [done|]; split; [congruence|]).
    + exists (Frame (S (frame s)) :: l ++ l2 ++ [LogError "frame wait is less than 0"]).
      split; [rewrite Hl2, Hl, <- !app_assoc; done|].
      exists l, l2, [LogError "frame wait is less than 0"].
      split; [done|]. split; [done|]. split; [done|].
      split; [by repeat constructor|]. split; [|done].
      left. intros i Hi. by apply (Hdone eq_refl i).
    + eexists (Frame (S (frame s)) :: l ++ l2 ++ [SetTimeout _]).
      split; [rewrite Hl2, Hl, <- !app_assoc; done|].
      exists l, l2, [SetTimeout (nsub (nadd (start env)
                      (nmul NOMINAL_DELAY (of_nat (S (frame s)))))
                      (now env (S (frame s))))].
      split; [done|]. split; [done|]. split; [done|].
      split; [by repeat constructor|]. split.
      * left. intros i Hi. by apply (Hdone eq_refl i).
      * intros _ j Hj. apply (Hsent j). congruence.
  - intros [= <- <-]. simpl.
    split; [done|]. split; [done|]. split; [done|].
    exists (Frame (S (frame s)) :: l ++ [] ++ []).
    split; [rewrite Hl, !app_nil_r, <- app_assoc; done|].
    exists l, [], []. split; [done|]. split; [done|].
    split; [constructor|]. split; [constructor|]. split; [by right|done].
Qed.

Lemma loop_in_order nc nu env s o s' :
  in_order nc nu s →
  (1 ≤ frame s → complete nc nu (frame s) (events (store s))) →
  loop env s = (o, s') →
  in_order nc nu s'
  ∧ (armed o = true → complete nc nu (frame s') (events (store s'))).
Proof.
  intros (Hnc & Hnu & Hord & Hbd) Hcomp Hloop.
  destruct (quit env (frame s)) eqn:Hq.
  - rewrite loop_quit in Hloop by done. injection Hloop as [= <- <-].
    split; [done|]. intros [=].
  - apply loop_block in Hloop as (Hf & Hcs & Hus & b & Hb & Hblock); [|done].
    rewrite Hnc, Hnu in Hblock.
    destruct (ordered_extend _ _ _ _ _ _ Hord Hbd Hcomp Hblock)
      as (Hord' & Hbd' & Hcomp').
    unfold in_order. rewrite Hf, Hb. split; [|exact Hcomp'].
    split; [congruence|]. split; [congruence|]. by split.
Qed.

Lemma run_in_order nc nu env fuel : ∀ s,
  in_order nc nu s →
  (1 ≤ frame s → complete nc nu (frame s) (events (store s))) →
  in_order nc nu (snd (run env fuel s)).
Proof.
  induction fuel as [|fuel IH]; intros s Hin Hcomp; simpl.
  - destruct (loop env s) as [o s'] eqn:Hloop.
    by destruct (loop_in_order _ _ _ _ _ _ Hin Hcomp Hloop).
  - destruct (loop env s) as [o s'] eqn:Hloop.
    destruct (loop_in_order _ _ _ _ _ _ Hin Hcomp Hloop) as [Hin' Hcomp'].
    destruct o; try done. apply IH; [done|]. intros _. by apply Hcomp'.
Qed.

Lemma wireAll_length (us : list Universe) cs : ∀ chs,
  wireAll us cs = Ok chs → length chs = length cs.
Proof.
  induction cs as [|c cs IH]; intros chs; simpl; [by intros [= <-]|].
  destruct (wire us c) as [ch|e]; simpl; [|done].
  destruct (wireAll us cs) as [chs'|e]; simpl; [|done].
  intros [= <-]. simpl. by rewrite (IH chs').
Qed.

(** C7.  In the events of the server, for every frame [k]: every
    completed update of frame [k] lies before every send of frame [k],
    and when a send of frame [k] begins ([Sending k j]) the updates of all
    channels in frame [k] are complete; the marks of a frame lie before
    the marks of every later frame; and when frame [k+2] begins, the
    updates of all channels and the sends of all universes in frame [k+1]
    are complete.  So no tick starts while another is in flight. *)
Theorem ticks_do_not_overlap cfg r0 env fuel :
  let tr := events (store (snd (main cfg r0 env fuel))) in
  let nc := length (cfg_channels cfg) in
  let nu := length (cfg_universes cfg) in
  (∀ k, precedes tr (is_updated k) (is_send k))
  ∧ (∀ q k j, tr !! q = Some (Sending k j) →
       ∀ i, i < nc → done_before tr q (Updated k i))
  ∧ (∀ k k', k < k' → precedes tr (in_frame k) (in_frame k'))
  ∧ (∀ q k, tr !! q = Some (Frame (S (S k))) →
       (∀ i, i < nc → done_before tr q (Updated (S k) i))
       ∧ (∀ j, j < nu → done_before tr q (Sent (S k) j))).
Proof.
  intros tr nc nu. change (ordered nc nu tr). subst tr nc nu. unfold main.
  destruct (wireAll _ (cfg_channels cfg)) as [chs|e] eqn:Hw.
  - destruct (run env fuel _) as [o s] eqn:Hrun. simpl.
    match type of Hrun with run _ _ ?s0 = _ =>
      assert (in_order (length (cfg_channels cfg)) (length (cfg_universes cfg))
                       (snd (run env fuel s0))) as Hin end.
    { apply run_in_order; [|simpl; lia].
      split; [by apply wireAll_length in Hw|]. split; [simpl; by rewrite length_fmap|].
      simpl. split.
      - split; [|split; [|split]].
        + intros k [|[|p]] q e e' [= <-]; try done. by intros _ [i [=]].
        + by intros [|[|q]] k j.
        + by intros k k' _ [|[|p]] q e e' [= <-].
        + by intros [|[|q]] k.
      - intros e k ->%list_elem_of_singleton []. }
    rewrite Hrun in Hin. by destruct Hin as (_ & _ & Hord & _).
  - simpl. split; [|split; [|split]].
    + intros k [|[|p]] q e' e'' [= <-]; try done. by intros _ [i [=]].
    + by intros [|[|q]] k j.
    + by intros k k' _ [|[|p]] q e' e'' [= <-].
    + by intros [|[|q]] k.
Qed.

(** * Further properties of the program *)

(** ** The colour parser *)

(** For a string without one of the three prefixes the function is the
    keyword conversion and adds no error of its own, whatever the package
    does. *)
Lemma parse_unprefixed str :
  String.prefix "rgb" str = false →
  String.prefix "hsv" str = false →
  String.prefix "0x" str = false →
  parseColorToHsv str = keyword_hsv str.
Proof.
  intros Hr Hh Hx. unfold parseColorToHsv.
  destruct (keyword_hsv str) as [[c|]|e]; simpl; [done| |done].
  by rewrite Hr, Hh, Hx.
Qed.

(** X1.  With a keyword conversion that never returns a falsy value (as
    that of [color-convert]: a colour for a keyword, an exception for any
    other string), [parseColorToHsv] returns or throws exactly what the
    keyword conversion does, for every string: the branches for the
    prefixes [rgb], [hsv] and [0x] and the errors [Unknown color] are
    never reached, and the result is never [undefined]. *)
Theorem parse_is_keyword_lookup :
  (∀ s, keyword_hsv s ≠ Ok None) →
  ∀ str, parseColorToHsv str = keyword_hsv str
         ∧ parseColorToHsv str ≠ Ok None
         ∧ ∀ msg, parseColorToHsv str = Throw (Error (msg +:+ str)) →
                  keyword_hsv str = Throw (Error (msg +:+ str)).
Proof.
  intros Hk str.
  assert (parseColorToHsv str = keyword_hsv str) as Heq.
  { unfold parseColorToHsv.
    destruct (keyword_hsv str) as [[c|]|e] eqn:Hs; simpl; [done| |done].
    by destruct (Hk str). }
  split; [done|]. rewrite Heq. split; [apply Hk|done].
Qed.

(** ** One update, continued *)

Lemma apply_effect_no_block (o : option (color3 num)) ch w :
  effect (Channel_config ch) = Some "candle" →
  candle (Channel_config ch) = None →
  apply_effect o (ch, w)
  = (Throw (TypeError "Cannot read properties of undefined (reading 'level')"),
     (ch, w)).
Proof.
  intros He Hf. unfold apply_effect, mbind, M_bind, bind, gets, lift. simpl.
  by rewrite Hf, decide_True.
Qed.

Lemma output_throws_iff (o : option (color3 num)) ch w :
  (∃ e, fst (output o (ch, w)) = Throw e)
  ↔ o = None ∧ (type (Channel_config ch) = "hsv" ∨ type (Channel_config ch) = "rgb").
Proof.
  unfold output, mbind, M_bind, bind, gets, modify. simpl.
  destruct (decide (type (Channel_config ch) = "hsv")) as [Hh|Hh].
  { destruct o; simpl; split.
    - intros [e [=]].
    - intros [[=] _].
    - intros _. split; [done|by left].
    - intros _. by eexists. }
  destruct (decide (type (Channel_config ch) = "rgb")) as [Hr|Hr].
  { destruct o; simpl; split.
    - intros [e [=]].
    - intros [[=] _].
    - intros _. split; [done|by right].
    - intros _. by eexists. }
  simpl. split; [by intros [e [=]]|]. by intros [_ [?|?]].
Qed.

(** X3.  With a keyword conversion that never returns a falsy value, and
    for effect blocks that carry [level] (the only ones [CandleConfig]
    has), [update] throws in exactly two situations: the keyword
    conversion throws on the hue, or it returns a colour and the channel
    declares the candle effect without an effect block.  In every other
    case it returns, whatever the encoding is. *)
Theorem update_throws_iff ch w :
  let c := Channel_config ch in
  (∀ s, keyword_hsv s ≠ Ok None) →
  (∃ e, fst (update (ch, w)) = Throw e)
  ↔ (∃ e, keyword_hsv (hue c) = Throw e)
    ∨ ((∃ d, keyword_hsv (hue c) = Ok (Some d))
       ∧ effect c = Some "candle" ∧ candle c = None).
Proof.
  intros c Hk. subst c. rewrite update_unfold.
  assert (parseColorToHsv (hue (Channel_config ch))
          = keyword_hsv (hue (Channel_config ch))) as ->.
  { unfold parseColorToHsv.
    destruct (keyword_hsv (hue (Channel_config ch))) as [[d|]|e] eqn:Hs;
      simpl; [done| |done].
    by destruct (Hk (hue (Channel_config ch))). }
  destruct (keyword_hsv (hue (Channel_config ch))) as [[d|]|e0] eqn:Hs.
  - destruct (decide (effect (Channel_config ch) = Some "candle")) as [He|He].
    + destruct (candle (Channel_config ch)) as [f|] eqn:Hf.
      * rewrite (apply_effect_candle _ _ _ f) by done.
        destruct (advanced f ch w) as [k1 r1]. split.
        -- intros Hthrow. apply output_throws_iff in Hthrow as [[=] _].
        -- intros [[e [=]]|(_ & _ & [=])].
      * rewrite apply_effect_no_block by done.
        split; [|intros _; by eexists].
        intros _. right. split; [by eexists|done].
    + rewrite apply_effect_plain by done. split.
      * intros Hthrow. apply output_throws_iff in Hthrow as [[=] _].
      * intros [[e [=]]|(_ & Heff & _)]. done.
  - by destruct (Hk (hue (Channel_config ch))).
  - split; [intros _; left; by eexists|intros _; by eexists].
Qed.

(** ** What stays as it is *)

Lemma same_universe_refl (u : Universe) : same_universe u u.
Proof. by repeat split. Qed.

Lemma same_universe_trans (u1 u2 u3 : Universe) :
  same_universe u1 u2 → same_universe u2 u3 → same_universe u1 u3.
Proof. unfold same_universe. intros ? ?. destruct_and!. repeat split; congruence. Qed.

Lemma Forall2_diag {A} (R : A → A → Prop) (l : list A) :
  (∀ x, R x x) → Forall2 R l l.
Proof. intros HR. induction l; by constructor. Qed.

Lemma Forall2_chain {A} (R : A → A → Prop) (l1 l2 l3 : list A) :
  (∀ x y z, R x y → R y z → R x z) →
  Forall2 R l1 l2 → Forall2 R l2 l3 → Forall2 R l1 l3.
Proof.
  intros HR H12. revert l3.
  induction H12 as [|x y l1 l2 Hxy _ IH]; intros l3 H23.
  - by inversion H23.
  - inversion H23 as [|? z ? l3' Hyz H23']; subst.
    constructor; [by eapply HR|by apply IH].
Qed.

(** The write of a three-component colour keeps the universe's identity,
    the number of its slots and the slots from index 3 on. *)
Lemma _set_data_same (o : nat) (d : color3 num) (u : Universe) :
  same_universe u (with_data (_set_data o (to_array d)) u).
Proof.
  assert (length (to_array d) = 3) as Hlen by (by destruct d as [[? ?] ?]).
  repeat split; simpl.
  - apply _set_loop_length.
  - apply list_eq. intros i. rewrite !lookup_drop.
    apply _set_loop_beyond. lia.
Qed.

Lemma output_same (o : option (color3 num)) ch w :
  Forall2 same_universe (universes w) (universes (snd (snd (output o (ch, w)))))
  ∧ ∀ j, j ≠ Channel_universe ch →
      universes (snd (snd (output o (ch, w)))) !! j = universes w !! j.
Proof.
  unfold output, mbind, M_bind, bind, gets, modify. simpl.
  assert (∀ o' : option (color3 num),
    Forall2 same_universe (universes w) (universes (snd (snd (_set o' (ch, w)))))
    ∧ ∀ j, j ≠ Channel_universe ch →
        universes (snd (snd (_set o' (ch, w)))) !! j = universes w !! j) as Hset.
  { intros [d|]; simpl.
    - split.
      + apply Forall2_alter_r; [apply Forall2_diag, same_universe_refl|].
        intros u u' _ _ Hu. eapply same_universe_trans; [exact Hu|].
        apply _set_data_same.
      + intros j Hj. by apply list_lookup_alter_ne.
    - split; [apply Forall2_diag, same_universe_refl|done]. }
  destruct (decide (type (Channel_config ch) = "hsv")); [apply Hset|].
  destruct (decide (type (Channel_config ch) = "rgb")); [apply Hset|].
  simpl. split; [apply Forall2_diag, same_universe_refl|done].
Qed.

Lemma update_keeps_universes ch w :
  Forall2 same_universe (universes w) (universes (snd (snd (update (ch, w))))).
Proof.
  rewrite update_unfold.
  destruct (parseColorToHsv _) as [o|e];
    [|apply Forall2_diag, same_universe_refl].
  destruct (apply_effect o (ch, w)) as [r [ch1 w1]] eqn:Heff.
  apply apply_effect_frame in Heff as (Hu & _ & _).
  destruct r as [o'|e]; simpl.
  - destruct (output_same o' ch1 w1) as [Hsame _]. by rewrite Hu in Hsame.
  - rewrite Hu. apply Forall2_diag, same_universe_refl.
Qed.

(** X5.  An update changes nothing in the store of universes but the
    slots 0, 1 and 2 of the channel's own universe: every other universe
    is left untouched, and the channel's universe keeps its name, address,
    channel count, number of slots and its slots from index 3 on.  This
    holds for every colour, encoding and effect, and also when the update
    throws. *)
Theorem update_touches_own_first_slots ch w :
  let w' := snd (snd (update (ch, w))) in
  Forall2 same_universe (universes w) (universes w')
  ∧ ∀ j, j ≠ Channel_universe ch → universes w' !! j = universes w !! j.
Proof.
  intros w'. subst w'. rewrite update_unfold.
  destruct (parseColorToHsv _) as [o|e].
  2:{ split; [apply Forall2_diag, same_universe_refl|done]. }
  destruct (apply_effect o (ch, w)) as [r [ch1 w1]] eqn:Heff.
  apply apply_effect_frame in Heff as (Hu & _ & Hw).
  destruct r as [o'|e]; simpl.
  2:{ rewrite Hu. split; [apply Forall2_diag, same_universe_refl|done]. }
  destruct (output_same o' ch1 w1) as [Hsame Hother].
  rewrite Hu in Hsame, Hother. split; [done|].
  intros j Hj. apply Hother. destruct Hw as (-> & _). done.
Qed.

(** X6.  At offset 0 the write works: for a channel without effect, with
    offset 0 and encoding [hsv] or [rgb], whose hue parses to a colour, on
    a universe of at least three slots, the update returns and the
    universe's slots are then the three components of the colour (for
    [rgb], of its conversion) as slot values, followed by the old slots
    from index 3 on. *)
Theorem update_at_offset_0 ch w u d :
  let c := Channel_config ch in
  channel c = 0 →
  effect c ≠ Some "candle" →
  parseColorToHsv (hue c) = Ok (Some d) →
  type c = "hsv" ∨ type c = "rgb" →
  universes w !! Channel_universe ch = Some u →
  3 ≤ length (slots (data u)) →
  fst (update (ch, w)) = Ok tt
  ∧ ∃ u', universes (snd (snd (update (ch, w)))) !! Channel_universe ch = Some u'
          ∧ slots (data u')
            = (to_uint8 <$> to_array (if decide (type c = "hsv") then d else hsv_rgb d))
              ++ drop 3 (slots (data u)).
Proof.
  intros c Ho He Hp Hty Hu Hlen. subst c.
  rewrite update_unfold, Hp, apply_effect_plain by done.
  assert (∀ d' : color3 num,
    slots (_set_data 0 (to_array d') (data u))
    = (to_uint8 <$> to_array d') ++ drop 3 (slots (data u))) as Hslots.
  { intros [[a b] c]. unfold _set_data. simpl.
    destruct (slots (data u)) as [|x [|y [|z l]]]; simpl in *; try lia. done. }
  unfold output, mbind, M_bind, bind, gets, modify. simpl.
  destruct (decide (type (Channel_config ch) = "hsv")) as [Hh|Hh]; simpl.
  - split; [done|]. rewrite Ho. eexists. split.
    + rewrite list_lookup_alter_eq, Hu. done.
    + apply Hslots.
  - destruct Hty as [Hty|Hty]; [done|]. rewrite decide_True by done. simpl.
    split; [done|]. rewrite Ho. eexists. split.
    + rewrite list_lookup_alter_eq, Hu. done.
    + apply Hslots.
Qed.

(** X7.  Two writes into the same slots, the second with an offset not
    greater than the first: the slots are as if only the second write had
    happened.  So of two channels on one universe, the one updated later
    wipes out the earlier one's colour whenever its offset is smaller or
    equal. *)
Theorem later_write_covers_earlier (o1 o2 : nat) (d1 d2 : color3 num) (D : Data) :
  o2 ≤ o1 →
  slots (_set_data o2 (to_array d2) (_set_data o1 (to_array d1) D))
  = slots (_set_data o2 (to_array d2) D).
Proof.
  intros Ho.
  assert (length (to_array d1) = 3) as Hl1 by (by destruct d1 as [[? ?] ?]).
  assert (length (to_array d2) = 3) as Hl2 by (by destruct d2 as [[? ?] ?]).
  apply list_eq. intros i. unfold _set_data.
  destruct (decide (i < o2)) as [Hlt|Hge].
  { rewrite !_set_loop_below by lia. done. }
  destruct (decide (3 ≤ i)) as [H3|H3].
  { rewrite !_set_loop_beyond by lia. done. }
  destruct (to_array d2 !! i) as [x|] eqn:Hx.
  2:{ apply lookup_ge_None in Hx. lia. }
  destruct (decide (i < length (slots D))) as [Hin|Hout].
  - rewrite (_set_loop_written _ _ _ x) by (rewrite ?_set_loop_length; done || lia).
    by rewrite (_set_loop_written _ _ _ x) by (done || lia).
  - rewrite !lookup_ge_None_2; [done|rewrite ?_set_loop_length; lia..].
Qed.

(** ** What a whole run keeps *)

Lemma update_kept ch w r ch' w' :
  update (ch, w) = (r, (ch', w')) →
  same_wiring ch ch' ∧ Forall2 same_universe (universes w) (universes w').
Proof.
  intros Hupd. split.
  - by apply update_frame in Hupd as (? & _).
  - pose proof (update_keeps_universes ch w) as Hsame.
    by rewrite Hupd in Hsame.
Qed.

Lemma updateAll_kept k cs : ∀ i w r cs' w',
  updateAll k i cs w = (r, (cs', w')) →
  Forall2 same_wiring cs cs'
  ∧ Forall2 same_universe (universes w) (universes w').
Proof.
  induction cs as [|c cs IH]; intros i w r cs' w'; simpl.
  - intros [= <- <- <-]. split; [constructor|apply Forall2_diag, same_universe_refl].
  - destruct (update (c, w)) as [[[]|e] [c1 w1]] eqn:Hupd;
      apply update_kept in Hupd as [Hc Hu].
    + destruct (updateAll k (S i) cs (emit (Updated k i) w1))
        as [r2 [cs2 w2]] eqn:Hrest.
      apply IH in Hrest as [Hcs Hus]. intros [= <- <- <-]. split.
      * by constructor.
      * eapply Forall2_chain; [apply same_universe_trans|exact Hu|exact Hus].
    + intros [= <- <- <-]. split; [|done].
      constructor; [done|apply Forall2_diag, same_wiring_refl].
Qed.

Lemma loop_kept env s o s' :
  loop env s = (o, s') →
  Forall2 same_wiring (channels s) (channels s')
  ∧ Forall2 same_universe (universes (store s)) (universes (store s')).
Proof.
  unfold loop. destruct (quit env (frame s)).
  { intros [= <- <-]. split.
    - apply Forall2_diag, same_wiring_refl.
    - apply Forall2_diag, same_universe_refl. }
  destruct (updateAll _ 0 (channels s) _) as [r [cs w]] eqn:Hupd.
  apply updateAll_kept in Hupd as [Hcs Hus]. simpl in Hus.
  destruct r as [[]|e].
  - destruct (sendAll _ 0 (universes w) w) as [rs w2] eqn:Hsend.
    apply sendAll_spec in Hsend as (Hus2 & -> & _).
    destruct (nle _ _); intros [= <- <-]; simpl; by rewrite Hus2.
  - by intros [= <- <-].
Qed.

Lemma run_kept env fuel : ∀ s,
  Forall2 same_wiring (channels s) (channels (snd (run env fuel s)))
  ∧ Forall2 same_universe (universes (store s))
                          (universes (store (snd (run env fuel s)))).
Proof.
  induction fuel as [|fuel IH]; intros s; simpl.
  - destruct (loop env s) as [o s'] eqn:Hloop. by apply loop_kept in Hloop.
  - destruct (loop env s) as [o s'] eqn:Hloop.
    apply loop_kept in Hloop as [Hcs Hus].
    destruct o; try done. destruct (IH s') as [Hcs' Hus']. split.
    + eapply Forall2_chain; [apply same_wiring_trans|exact Hcs|exact Hcs'].
    + eapply Forall2_chain; [apply same_universe_trans|exact Hus|exact Hus'].
Qed.

(** X8.  Whatever the configuration, the clock and the stop requests
    are, and however long the server runs: its universes are the
    configured ones, in order, each with its name, address and channel
    count and with exactly as many slots as it has channels; and every
    slot from index 3 on is still zero.  Only the first three slots of a
    universe ever change. *)
Theorem universes_are_fixed cfg r0 env fuel :
  Forall2 (λ uc u,
             Universe_config u = uc
             ∧ name u = u_name uc
             ∧ address u = u_ip uc
             ∧ channelCount u = u_channels uc
             ∧ length (slots (data u)) = u_channels uc
             ∧ drop 3 (slots (data u)) = replicate (u_channels uc - 3) (of_nat 0))
          (cfg_universes cfg)
          (universes (store (snd (main cfg r0 env fuel)))).
Proof.
  assert (Forall2 (λ uc (u : Universe),
             Universe_config u = uc
             ∧ name u = u_name uc
             ∧ address u = u_ip uc
             ∧ channelCount u = u_channels uc
             ∧ length (slots (data u)) = u_channels uc
             ∧ drop 3 (slots (data u)) = replicate (u_channels uc - 3) (of_nat 0))
          (cfg_universes cfg) (Universe_new <$> cfg_universes cfg)) as Hnew.
  { apply Forall2_fmap_r, Forall2_diag. intros uc. simpl.
    rewrite length_replicate, drop_replicate. by repeat split. }
  unfold main.
  destruct (wireAll _ (cfg_channels cfg)) as [chs|e]; [|done].
  match goal with |- context [run env fuel ?s0] =>
    destruct (run_kept env fuel s0) as [_ Hus];
    destruct (run env fuel s0) as [o s] end.
  simpl in *. clear -Hnew Hus.
  revert Hus. generalize (universes (store s)).
  induction Hnew as [|uc u ucs us Hu _ IH]; intros l Hl.
  - inversion Hl. constructor.
  - inversion Hl as [|? u' ? l' Huu' Hl']; subst. constructor; [|by apply IH].
    destruct Hu as (? & ? & ? & ? & ? & ?).
    destruct Huu' as (? & ? & ? & ? & ? & ?).
    repeat split; congruence.
Qed.

(** X9.  The channels of the running server are those that the wiring
    produced, in order: a run changes neither their number nor, in any of
    them, the universe it refers to, the universe name, the offset, the
    encoding, the hue, the effect or the effect block.  Only [_candle]
    changes. *)
Theorem channels_are_fixed cfg r0 env fuel chs :
  wireAll (Universe_new <$> cfg_universes cfg) (cfg_channels cfg) = Ok chs →
  Forall2 same_wiring chs (channels (snd (main cfg r0 env fuel))).
Proof.
  intros Hw. unfold main. rewrite Hw.
  match goal with |- context [run env fuel ?s0] =>
    destruct (run_kept env fuel s0) as [Hcs _];
    destruct (run env fuel s0) as [o s] end.
  done.
Qed.

Lemma wire_bound (us : list Universe) c ch :
  wire us c = Ok ch → bound us c ch.
Proof.
  unfold wire. destruct (list_find _ us) as [[i u]|] eqn:Hfind; [|done].
  apply list_find_Some in Hfind as (Hi & Hu & Hfirst). intros [= <-].
  split; [done|]. exists u. repeat split; [done..|].
  intros j u' Hj Hlt. by eapply Hfirst.
Qed.

Lemma wireAll_bound (us : list Universe) cs : ∀ chs,
  wireAll us cs = Ok chs → Forall2 (bound us) cs chs.
Proof.
  induction cs as [|c cs IH]; intros chs; simpl; [intros [= <-]; constructor|].
  destruct (wire us c) as [ch|e] eqn:Hw; simpl; [|done].
  destruct (wireAll us cs) as [chs'|e]; simpl; [|done].
  intros [= <-]. constructor; [by apply wire_bound|by apply IH].
Qed.

Lemma wired_kept (w w' : world) ch ch' :
  wired w ch → same_wiring ch ch' →
  Forall2 same_universe (universes w) (universes w') →
  wired w' ch'.
Proof.
  intros (u & Hu & Hname) (Hi & Hn & _) Hus.
  destruct (Forall2_lookup_l _ _ _ _ _ Hus Hu) as (u' & Hu' & Hsame).
  exists u'. rewrite Hi, Hn. split; [done|].
  destruct Hsame as (_ & -> & _). done.
Qed.

(** X10.  At every moment of a run each channel refers to a universe
    that exists, and to one that carries the universe name of the
    channel's configuration: the reference resolved at start-up never
    dangles. *)
Theorem references_stay_valid cfg r0 env fuel :
  Forall (wired (store (snd (main cfg r0 env fuel))))
         (channels (snd (main cfg r0 env fuel))).
Proof.
  unfold main.
  destruct (wireAll _ (cfg_channels cfg)) as [chs|e] eqn:Hw; [|constructor].
  apply wireAll_bound in Hw.
  match goal with |- context [run env fuel ?s0] =>
    destruct (run_kept env fuel s0) as [Hcs Hus];
    destruct (run env fuel s0) as [o s] end.
  simpl in *.
  assert (Forall (wired {| universes := Universe_new <$> cfg_universes cfg;
                           random := r0;
                           events := [LogInfo "starting server"] |}) chs) as H0'.
  { clear -Hw. induction Hw as [|c ch cs chs' Hb _ IH]; constructor; [|done].
    destruct Hb as (Hc & u & Hu & Hname & _). exists u. split; [done|].
    rewrite Hc, <- Hname. simpl in Hu.
    apply list_lookup_fmap_Some in Hu as (uc & -> & _). done. }
  clear -Hcs Hus H0'. revert H0'.
  induction Hcs as [|ch ch' chs chs' Hch _ IH]; intros Hall; constructor.
  - inversion Hall; subst. by eapply wired_kept.
  - apply IH. by inversion Hall.
Qed.

(** ** The send phase *)

(** X11.  The send phase of a tick cannot fail and changes no buffer: for
    each universe, in configuration order, it logs the universe's name
    with its slots as the updates left them, every promise is resolved,
    and the universes and the random source are as before. *)
Theorem send_phase_only_logs k us : ∀ j w,
  sendAll k j us w
  = (replicate (length us) (Ok tt),
     {| universes := universes w;
        random := random w;
        events := events w ++ send_trace k j us |}).
Proof.
  induction us as [|u us IH]; intros j w; simpl.
  - rewrite app_nil_r. by destruct w.
  - rewrite IH. simpl. by rewrite <- !app_assoc.
Qed.

(** ** A server in good health *)








(** ** Universes that no channel reaches *)

Lemma update_other_universe ch w j :
  j ≠ Channel_universe ch →
  universes (snd (snd (update (ch, w)))) !! j = universes w !! j.
Proof.
  intros Hj. rewrite update_unfold.
  destruct (parseColorToHsv _) as [o|e]; [|done].
  destruct (apply_effect o (ch, w)) as [r [ch1 w1]] eqn:Heff.
  apply apply_effect_frame in Heff as (Hu & _ & (Hi & _)).
  destruct r as [o'|e]; simpl; [|by rewrite Hu].
  destruct (output_same o' ch1 w1) as [_ Hother].
  rewrite Hother, Hu by congruence. done.
Qed.

Lemma updateAll_other k j cs : ∀ i w r cs' w',
  updateAll k i cs w = (r, (cs', w')) →
  Forall (λ ch, Channel_universe ch ≠ j) cs →
  universes w' !! j = universes w !! j.
Proof.
  induction cs as [|c cs IH]; intros i w r cs' w'; simpl.
  - by intros [= <- <- <-].
  - intros Hall Hne. inversion Hne as [|? ? Hc Hcs]; subst.
    pose proof (update_other_universe c w j (not_eq_sym Hc)) as Hupd.
    destruct (update (c, w)) as [[[]|e] [c1 w1]]; simpl in Hupd.
    + destruct (updateAll k (S i) cs (emit (Updated k i) w1))
        as [r2 [cs2 w2]] eqn:Hrest.
      injection Hall as [= <- <- <-].
      by rewrite (IH _ _ _ _ _ Hrest Hcs).
    + by injection Hall as [= <- <- <-].
Qed.

Lemma unreached_kept j (cs cs' : list Channel) :
  Forall (λ ch, Channel_universe ch ≠ j) cs →
  Forall2 same_wiring cs cs' →
  Forall (λ ch, Channel_universe ch ≠ j) cs'.
Proof.
  intros Hall Hsame. induction Hsame as [|c c' cs cs' Hc _ IH]; [constructor|].
  inversion Hall; subst. constructor; [|by apply IH].
  destruct Hc as (-> & _). done.
Qed.

Lemma loop_other env j s o s' :
  loop env s = (o, s') →
  Forall (λ ch, Channel_universe ch ≠ j) (channels s) →
  universes (store s') !! j = universes (store s) !! j.
Proof.
  unfold loop. destruct (quit env (frame s)); [by intros [= <- <-]|].
  destruct (updateAll _ 0 (channels s) _) as [r [cs w]] eqn:Hupd.
  intros Hloop Hne. pose proof (updateAll_other _ j _ _ _ _ _ _ Hupd Hne) as Hj.
  simpl in Hj. destruct r as [[]|e].
  - destruct (sendAll _ 0 (universes w) w) as [rs w2] eqn:Hsend.
    apply sendAll_spec in Hsend as (Hus2 & Hall & _). rewrite Hall in Hloop.
    destruct (nle _ _); injection Hloop as [= <- <-]; simpl; by rewrite Hus2.
  - by injection Hloop as [= <- <-].
Qed.

Lemma run_other env j fuel : ∀ s,
  Forall (λ ch, Channel_universe ch ≠ j) (channels s) →
  universes (store (snd (run env fuel s))) !! j = universes (store s) !! j.
Proof.
  induction fuel as [|fuel IH]; intros s Hne; simpl.
  - destruct (loop env s) as [o s'] eqn:Hloop. by eapply loop_other.
  - destruct (loop env s) as [o s'] eqn:Hloop.
    pose proof (loop_other _ j _ _ _ Hloop Hne) as Hj.
    destruct o; try done. rewrite IH; [done|].
    apply loop_kept in Hloop as [Hcs _]. by eapply unreached_kept.
Qed.

Lemma main_other cfg r0 env fuel j :
  (∀ c ch, c ∈ cfg_channels cfg →
           bound (Universe_new <$> cfg_universes cfg) c ch →
           Channel_universe ch ≠ j) →
  universes (store (snd (main cfg r0 env fuel))) !! j
  = (Universe_new <$> cfg_universes cfg) !! j.
Proof.
  intros Hne. unfold main.
  destruct (wireAll _ (cfg_channels cfg)) as [chs|e] eqn:Hw; [|done].
  apply wireAll_bound in Hw.
  match goal with |- context [run env fuel ?s0] =>
    pose proof (run_other env j fuel s0) as Hrun;
    destruct (run env fuel s0) as [o s] end.
  simpl in *. apply Hrun. clear Hrun.
  induction Hw as [|c ch cs chs' Hb _ IH]; constructor.
  - apply (Hne c); [by left|done].
  - apply IH. intros c' ch' Hc'. apply Hne. by right.
Qed.

(** X15.  A universe that no channel names is never written: however
    long the server runs, it is exactly as it was constructed, all its
    slots zero and with no assignment ever executed on it (it is still
    sent in every tick). *)
Theorem unnamed_universe_is_never_written cfg r0 env fuel j uc :
  cfg_universes cfg !! j = Some uc →
  (∀ c, c ∈ cfg_channels cfg → universe c ≠ u_name uc) →
  universes (store (snd (main cfg r0 env fuel))) !! j = Some (Universe_new uc).
Proof.
  intros Hj Hno. rewrite main_other.
  - by rewrite list_lookup_fmap, Hj.
  - intros c ch Hc (_ & u & Hu & Hname & _) Heq. rewrite Heq in Hu.
    rewrite list_lookup_fmap, Hj in Hu. injection Hu as [= <-].
    by apply (Hno c).
Qed.

(** X16.  Of two universes with the same name only the first is ever
    bound to a channel: a universe that repeats the name of an earlier one
    stays exactly as it was constructed for the whole run, even when
    channels name it. *)
Theorem shadowed_universe_is_never_written cfg r0 env fuel i j uc uc' :
  i < j →
  cfg_universes cfg !! i = Some uc' →
  cfg_universes cfg !! j = Some uc →
  u_name uc' = u_name uc →
  universes (store (snd (main cfg r0 env fuel))) !! j = Some (Universe_new uc).
Proof.
  intros Hij Hi Hj Hsame. rewrite main_other.
  - by rewrite list_lookup_fmap, Hj.
  - intros c ch Hc (_ & u & Hu & Hname & Hfirst) Heq. rewrite Heq in Hu, Hfirst.
    rewrite list_lookup_fmap, Hj in Hu. injection Hu as [= <-].
    apply (Hfirst i (Universe_new uc')); [|done|].
    + by rewrite list_lookup_fmap, Hi.
    + simpl in *. congruence.
Qed.

End Properties.

(** * The definitions on concrete inputs *)
Module Scenarios.
Import Stage.

(** C1.  A channel with offset 1 into a universe of 6 slots, encoding
    [hsv], hue [blue] (HSV 240, 100, 100).  The claim asks for slots 1, 2
    and 3 to receive 240, 100 and 100.  The code executes
    [buffer[1] = 100] and [buffer[2] = 100]: the first component is
    dropped, the others land unshifted, and slot 3 is not written. *)
Theorem offset_one_drops_first_component :
  let w := snd (snd (update (on_stage (plain 1 "hsv" "blue"), w0))) in
  stage_writes w = [(1, inject_Z 100); (2, inject_Z 100)]
  ∧ stage_slots w = numbers [0; 100; 100; 0; 0; 0]%Z
  ∧ stage_slots w ≠ numbers [0; 240; 100; 100; 0; 0]%Z.
Proof. vm_compute. by repeat split. Qed.

(** C2.  A first tick that ends 40 ms after the start, later than its
    target of 33.3 ms: the overrun is logged, then the call of [loop] is
    rejected at the assignment to the constant [wait]; the timer is never
    armed and, however long one waits, the frame counter stays at 1. *)
Theorem overrun_ends_the_loop (fuel : nat) :
  let r := run late fuel (fresh [plain 0 "rgb" "red"]) in
  fst r = Rejected (TypeError "Assignment to constant variable.")
  ∧ frame (snd r) = 1
  ∧ events (store (snd r))
    = [Frame 1; Updated 1 0;
       Sending 1 0; LogDebugSending "stage" (numbers [255; 0; 0; 0; 0; 0]%Z);
       Sent 1 0; LogError "frame wait is less than 0"].
Proof.
  intros r. subst r.
  rewrite (run_stops late fuel (fresh [plain 0 "rgb" "red"])
             (fst (loop late (fresh [plain 0 "rgb" "red"])))
             (snd (loop late (fresh [plain 0 "rgb" "red"])))).
  - vm_compute. by repeat split.
  - by destruct (loop late _).
  - vm_compute. by intros wait.
Qed.

(** C3.  The string [not-a-color] is no keyword and has none of the
    prefixes.  [parseColorToHsv] fails on it, but not with an error of
    its own that names the string: the keyword conversion of line 74
    throws a [TypeError] of the package, and that is what the function and
    the update throw.  The errors [Unknown color] of the function are not
    reached (and for a string without prefix the function has none).
    Nothing is written. *)
Theorem unknown_colour_error_does_not_name_it :
  parseColorToHsv "not-a-color"
  = Throw (TypeError "Cannot read properties of undefined (reading '0')")
  ∧ parseColorToHsv "not-a-color" ≠ Throw (Error "Unknown color: not-a-color")
  ∧ update (on_stage (plain 0 "hsv" "not-a-color"), w0)
    = (Throw (TypeError "Cannot read properties of undefined (reading '0')"),
       (on_stage (plain 0 "hsv" "not-a-color"), w0)).
Proof. by vm_compute. Qed.

(** C4.  On a transport that fails every send, [send] logs, transmits
    nothing and resolves; the statement after its [return], which would
    transmit and reject with the transport's error, is not reached. *)
Theorem send_resolves_without_transmitting :
  let u := Universe_new stage in
  client_send (address u) (slots (data u)) = Some (Error "ENETUNREACH")
  ∧ send u w0 = (Ok tt, emit (LogDebugSending "stage" (numbers [0; 0; 0; 0; 0; 0]%Z)) w0)
  ∧ send_unreachable u w0
    = (Throw (Error "ENETUNREACH"),
       emit (Transmit "10.0.0.2" (numbers [0; 0; 0; 0; 0; 0]%Z)) w0).
Proof. by vm_compute. Qed.

(** C5 does not hold as stated.  Two channels: the first declares the
    candle effect without an effect block, so that its update throws on
    [f.level] (line 114); the second is red at offset 0.  On its own the
    second channel's update writes 255, 0, 0.  In a tick the first update
    throws, and the second update does not run: the slots are untouched
    and the only event is the frame mark. *)
Lemma later_channel_is_not_updated :
  let good := plain 0 "rgb" "red" in
  let bad := blockless 3 "hsv" "blue" in
  let r := loop (on_time 9) (fresh [bad; good]) in
  stage_slots (snd (snd (update (on_stage good, w0)))) = numbers [255; 0; 0; 0; 0; 0]%Z
  ∧ fst r = Rejected (TypeError "Cannot read properties of undefined (reading 'level')")
  ∧ stage_slots (store (snd r)) = numbers [0; 0; 0; 0; 0; 0]%Z
  ∧ stage_writes (store (snd r)) = []
  ∧ events (store (snd r)) = [Frame 1].
Proof. by vm_compute. Qed.

(** A flickering channel at offset 4 leaves the universe untouched. *)
Lemma update_offset_ge_3_witness :
  universes (snd (snd (update (on_stage (flicker 4 "hsv" "blue"), w0))))
  = universes w0.
Proof. apply update_offset_ge_3_writes_nothing. simpl. lia. Defined.

(** Offset 1 and the colour 240, 100, 100 on the six zero slots of
    [stage] in the store [w0]: the assignments executed on the universe
    are [buffer[1] = 100] and [buffer[2] = 100]; slot 2 holds the third
    component, slot 0 keeps its zero and slot 3 is not reached. *)
Lemma set_writes_witness :
  let r := _set (Some (rgb 240 100 100)) (on_stage (plain 1 "hsv" "blue"), w0) in
  ∃ u', universes (snd (snd r)) !! 0 = Some u'
        ∧ writes (data u') = [(1, inject_Z 100); (2, inject_Z 100)]
        ∧ slots (data u') !! 2 = Some (to_uint8 (inject_Z 100))
        ∧ slots (data u') !! 0 = Some (inject_Z 0)
        ∧ slots (data u') !! 3 = Some (inject_Z 0)
        ∧ (2, inject_Z 100) ∈ zip (seq 1 2) (drop 1 (to_array (rgb 240 100 100))).
Proof.
  intros r.
  destruct (set_writes_unshifted_suffix (on_stage (plain 1 "hsv" "blue")) w0
              (rgb 240 100 100) (Universe_new stage) eq_refl)
    as (_ & _ & _ & _ & _ & u' & Hu' & _ & _ & _ & _ & Hw & Hin & _ & Hkeep & Hput & _).
  exists u'. split; [exact Hu'|].
  split; [rewrite Hw; reflexivity|].
  split; [apply Hput; [simpl; lia|reflexivity|simpl; lia]|].
  split; [rewrite Hkeep by (simpl; lia); reflexivity|].
  split; [rewrite Hkeep by (simpl; lia); reflexivity|].
  apply Hin. split; [simpl; lia|reflexivity].
Defined.

(** Three updates of a flickering blue channel: the simulator built in
    the first update has been stepped three times (flame 51, 136, 221). *)
Lemma candle_effect_witness :
  let ch := on_stage (flicker 0 "hsv" "blue") in
  let st := updated 2 (ch, w0) in
  update st
  = output (Some (inject_Z 240, inject_Z 100,
                  nadd (inject_Z 50)
                       (nmul (ndiv (inject_Z 221) (of_nat 255)) (inject_Z 100))))
           (with_candle (inject_Z 221) (fst st), with_random 3 (snd st))
  ∧ _candle (Channel_config (fst (updated 3 (ch, w0)))) = Some (inject_Z 221).
Proof.
  intros ch st.
  apply (candle_effect_brightness ch w0
           {| level := (inject_Z 50, inject_Z 100) |}
           (inject_Z 50) (inject_Z 100)
           (inject_Z 240) (inject_Z 100) (inject_Z 100) 2); reflexivity.
Defined.

(** Three channels, the second declaring the candle effect without an
    effect block: the first has been updated, the third has not, and the
    loop is over. *)
Lemma update_error_witness :
  let red := on_stage (plain 0 "rgb" "red") in
  let bad := on_stage (blockless 3 "hsv" "blue") in
  let blue := on_stage (plain 0 "hsv" "blue") in
  let w1 := snd (snd (updateAll 1 0 [red] (emit (Frame 1) w0))) in
  run (on_time 9) 3 {| channels := [red; bad; blue]; store := w0; frame := 0 |}
  = (Rejected (TypeError "Cannot read properties of undefined (reading 'level')"),
     {| channels := [red; bad; blue]; store := w1; frame := 1 |}).
Proof.
  intros red bad blue w1.
  apply (update_error_ends_tick (on_time 9)
           {| channels := [red; bad; blue]; store := w0; frame := 0 |}
           [red] bad [blue] [red] w1
           (TypeError "Cannot read properties of undefined (reading 'level')")
           bad w1); reflexivity.
Defined.

(** [stray] names the universe [attic] and fails at start-up; every name
    in [show] resolves and the loop is started. *)
Lemma unknown_universe_witness :
  fst (main stray 0 late 3) = Fatal (Error "No matching universe")
  ∧ ∃ chs, wireAll (Universe_new <$> cfg_universes show) (cfg_channels show) = Ok chs
           ∧ main show 0 (on_time 2) 5
             = (exit_status (fst (run (on_time 2) 5 (started show 0 chs))),
                snd (run (on_time 2) 5 (started show 0 chs))).
Proof.
  split.
  - rewrite (proj1 (unknown_universe_is_fatal stray 0 late 3)); [reflexivity|].
    eexists. split; [left|]. intros u Hu.
    apply list_elem_of_singleton in Hu. subst u. discriminate.
  - destruct (proj2 (unknown_universe_is_fatal show 0 (on_time 2) 5))
      as (chs & Hw & _ & Hmain).
    + intros c Hc. exists stage. split; [left|].
      apply elem_of_cons in Hc as [->|Hc]; [reflexivity|].
      apply list_elem_of_singleton in Hc. subst c. reflexivity.
    + exists chs. split; assumption.
Defined.

(** Two ticks of [gala].  The update of the second channel in frame 1 is
    at position 3 of the events and the first send of frame 1 begins at
    position 4; frame 1 begins at position 1 and frame 2 at position 11,
    after the second send of frame 1. *)
Lemma ticks_witness :
  let tr := events (store (snd (main gala 0 (on_time 2) 5))) in
  (tr !! 3 = Some (Updated 1 1) ∧ tr !! 4 = Some (Sending 1 0) ∧ 3 < 4)
  ∧ done_before tr 4 (Updated 1 1)
  ∧ (tr !! 1 = Some (Frame 1) ∧ tr !! 11 = Some (Frame 2) ∧ 1 < 11)
  ∧ done_before tr 11 (Sent 1 1).
Proof.
  intros tr.
  destruct (ticks_do_not_overlap gala 0 (on_time 2) 5) as (Ha & Hb & Hc & Hd).
  split; [|split; [|split]].
  - split; [reflexivity|]. split; [reflexivity|].
    apply (Ha 1 3 4 (Updated 1 1) (Sending 1 0));
      [reflexivity|reflexivity|by exists 1|exists 0; by left].
  - apply (Hb 4 1 0); [reflexivity|simpl; lia].
  - split; [reflexivity|]. split; [reflexivity|].
    apply (Hc 1 2 (le_n 2) 1 11 (Frame 1) (Frame 2)); reflexivity.
  - apply (Hd 11 0); [reflexivity|simpl; lia].
Defined.

(** ** Further properties on concrete inputs *)

Lemma keyword_is_never_falsy (s : string) : keyword_hsv s ≠ Ok None.
Proof. simpl. destruct (css_keyword s); discriminate. Defined.

(** The documented form [rgb(255,0,0)] is no keyword: the parser throws
    what the keyword conversion throws. *)
Lemma parse_is_keyword_witness :
  parseColorToHsv "rgb(255,0,0)"
  = Throw (TypeError "Cannot read properties of undefined (reading '0')").
Proof.
  rewrite (proj1 (parse_is_keyword_lookup keyword_is_never_falsy "rgb(255,0,0)")).
  reflexivity.
Defined.

(** A red channel that declares the candle effect without an effect
    block: the update throws, for the second reason. *)
Lemma update_throws_witness :
  ∃ e, fst (update (on_stage (blockless 0 "hsv" "red"), w0)) = Throw e.
Proof.
  apply (update_throws_iff (on_stage (blockless 0 "hsv" "red")) w0
           keyword_is_never_falsy).
  right. split; [eexists; reflexivity|]. split; reflexivity.
Defined.

(** An update of a channel of [stage] leaves [house] as it is. *)
Lemma update_other_universe_witness :
  universes (snd (snd (update (on_stage (plain 0 "rgb" "red"), w2)))) !! 1
  = universes w2 !! 1.
Proof.
  apply (proj2 (update_touches_own_first_slots (on_stage (plain 0 "rgb" "red")) w2)).
  simpl. lia.
Defined.

(** Red in the encoding [rgb] at offset 0 of [stage]. *)
Lemma update_at_offset_0_witness :
  let ch := on_stage (plain 0 "rgb" "red") in
  fst (update (ch, w0)) = Ok tt
  ∧ ∃ u', universes (snd (snd (update (ch, w0)))) !! 0 = Some u'
          ∧ slots (data u') = numbers [255; 0; 0; 0; 0; 0]%Z.
Proof.
  intros ch.
  destruct (update_at_offset_0 ch w0 (Universe_new stage) (rgb 0 100 100))
    as [Hok (u' & Hu' & Hslots)];
    [reflexivity|discriminate|reflexivity|right; reflexivity|reflexivity
    |simpl; lia|].
  split; [exact Hok|]. exists u'. split; [exact Hu'|].
  rewrite Hslots. reflexivity.
Defined.

(** Blue written at offset 1, then red at offset 0. *)
Lemma later_write_witness :
  let D := data (Universe_new stage) in
  slots (_set_data 0 (to_array (rgb 0 100 100))
           (_set_data 1 (to_array (rgb 240 100 100)) D))
  = slots (_set_data 0 (to_array (rgb 0 100 100)) D).
Proof. intros D. apply later_write_covers_earlier. lia. Defined.

Lemma channels_are_fixed_witness :
  Forall2 same_wiring
    [{| Channel_config := plain 0 "rgb" "rgb(255,0,0)"; Channel_universe := 0 |};
     {| Channel_config := flicker 0 "hsv" "lime"; Channel_universe := 0 |}]
    (channels (snd (main show 0 (on_time 2) 5))).
Proof. apply channels_are_fixed. reflexivity. Defined.






(** In [doubled] the universe [house], which no channel names, and the
    second [stage], which the first one shadows, are never written. *)
Lemma unnamed_universe_witness :
  universes (store (snd (main doubled 0 (on_time 2) 5))) !! 2
  = Some (Universe_new house).
Proof.
  apply unnamed_universe_is_never_written; [reflexivity|].
  intros c Hc. apply list_elem_of_singleton in Hc. subst c. discriminate.
Defined.

Lemma shadowed_universe_witness :
  universes (store (snd (main doubled 0 (on_time 2) 5))) !! 1
  = Some (Universe_new stage).
Proof.
  apply (shadowed_universe_is_never_written doubled 0 (on_time 2) 5 0 1 stage stage);
    [lia|reflexivity..].
Defined.

End Scenarios.
